(** * Real-time audio capture pipeline: buffer, classifier, orchestrator,
      device diff and segment window

    A shallow embedding of the TypeScript sources

    - [audio-capture-manager.ts]: [RingBuffer], [VoiceActivityDetector],
      [AudioCaptureManager];
    - [audio-device-manager.ts]: [AudioDeviceManager.detectDeviceChanges];
    - [speech-service-manager.ts]: [SpeechServiceManager], [WhisperService];
    - [error-handler.ts]: the retry bookkeeping of [ErrorHandler].

    Conventions.  A JavaScript [number] that only ever holds an integer
    (cursors, lengths, millisecond timestamps and durations) is a [Z];
    [%] is the truncating remainder [Z.rem].  A sample, and every value
    computed from samples, is a binary64 [float], which is what a
    JavaScript [number] is.  A [Float32Array] is a [list] of samples: its
    elements are single-precision values, each of them a binary64 value, so
    a copy from one typed array into another changes nothing.  A store
    outside its bounds is dropped and a load outside them yields
    [undefined], which a typed array keeps as NaN.  A [throw] is an explicit
    error result.  An [emit] is an entry in the list of events a call
    returns, in emission order; log lines are left out. *)

From Stdlib Require Import ZArith List Lia Bool String Floats Permutation Sorted.
From stdpp Require Import base list strings gmap.
Import ListNotations.

Set Warnings "-inexact-float".

Local Open Scope Z_scope.

(** ** Float32Array *)

(** A sample is a [float]. *)
Abbreviation sample := float (only parsing).

Module Float32Array.

(** [new Float32Array(n)]: [n] zeros; a negative length is a RangeError. *)
Definition make (n : Z) : option (list sample) :=
  if n <? 0 then None else Some (replicate (Z.to_nat n) 0%float).

(** [a[i]] as an r-value. *)
Definition load (a : list sample) (i : Z) : sample :=
  if 0 <=? i then default nan (a !! Z.to_nat i) else nan.

(** [a[i] = x]. *)
Definition store (a : list sample) (i : Z) (x : sample) : list sample :=
  if 0 <=? i then <[Z.to_nat i := x]> a else a.

Definition len (a : list sample) : Z := Z.of_nat (length a).

End Float32Array.

(** ** RingBuffer *)

Module RingBuffer.

Record t : Type := mk {
  buffer : list sample;
  writePos : Z;
  readPos : Z;
  size : Z
}.

(** [constructor(sizeInSamples)] *)
Definition new (sizeInSamples : Z) : option t :=
  match Float32Array.make sizeInSamples with
  | Some a => Some (mk a 0 0 sizeInSamples)
  | None => None
  end.

Definition getAvailableData (rb : t) : Z :=
  Z.rem (writePos rb - readPos rb + size rb) (size rb).

Definition getAvailableSpace (rb : t) : Z :=
  size rb - getAvailableData rb - 1.

(** One turn of the loop in [write]. *)
Definition put (x : sample) (rb : t) : t :=
  mk (Float32Array.store (buffer rb) (writePos rb) x)
     (Z.rem (writePos rb + 1) (size rb))
     (readPos rb)
     (size rb).

Fixpoint write_loop (data : list sample) (rb : t) : t :=
  match data with
  | [] => rb
  | x :: rest => write_loop rest (put x rb)
  end.

(** [write(data)]: [false] is the overflow signal. *)
Definition write (data : list sample) (rb : t) : bool * t :=
  let availableSpace := getAvailableSpace rb in
  if Float32Array.len data >? availableSpace
  then (false, rb)
  else (true, write_loop data rb).

(** One turn of the loop in [read]. *)
Definition take1 (rb : t) : sample * t :=
  (Float32Array.load (buffer rb) (readPos rb),
   mk (buffer rb) (writePos rb) (Z.rem (readPos rb + 1) (size rb)) (size rb)).

Fixpoint read_loop (toRead : nat) (rb : t) : list sample * t :=
  match toRead with
  | O => ([], rb)
  | S k =>
      let (x, rb1) := take1 rb in
      let (xs, rb2) := read_loop k rb1 in
      (x :: xs, rb2)
  end.

(** [read(samples)]: [None] is the RangeError of [new Float32Array(toRead)]
    at a negative [toRead]. *)
Definition read (samples : Z) (rb : t) : option (list sample * t) :=
  let available := getAvailableData rb in
  let toRead := Z.min samples available in
  if toRead <? 0 then None else Some (read_loop (Z.to_nat toRead) rb).

Definition clear (rb : t) : t :=
  mk (buffer rb) 0 0 (size rb).

(** *** Representation invariant and abstraction *)

(** What the constructor establishes for a positive capacity and every
    operation keeps. *)
Definition wf (rb : t) : Prop :=
  0 < size rb /\
  Float32Array.len (buffer rb) = size rb /\
  0 <= writePos rb < size rb /\
  0 <= readPos rb < size rb.

(** The samples written and not yet read, oldest first. *)
Definition contents (rb : t) : list sample :=
  map (fun i : nat =>
         Float32Array.load (buffer rb)
           (Z.rem (readPos rb + Z.of_nat i) (size rb)))
      (seq 0 (Z.to_nat (getAvailableData rb))).

(** *** Sequences of operations *)

Inductive op : Type :=
| Write (data : list sample)
| Read (count : nat).

(** Samples accepted by [write] and samples handed out by [read] so far. *)
Record tally : Type := mkTally { written : Z; returned : Z }.

Definition step (o : op) (s : t * tally) : t * tally :=
  let (rb, c) := s in
  match o with
  | Write data =>
      let (ok, rb') := write data rb in
      (rb', if ok then mkTally (written c + Float32Array.len data) (returned c)
            else c)
  | Read count =>
      match read (Z.of_nat count) rb with
      | Some (xs, rb') =>
          (rb', mkTally (written c) (returned c + Float32Array.len xs))
      | None => (rb, c)
      end
  end.

Definition run (ops : list op) (s : t * tally) : t * tally :=
  fold_left (fun s o => step o s) ops s.

End RingBuffer.

(** ** VoiceActivityDetector *)

Module VoiceActivityDetector.

Record t : Type := mk {
  energyThreshold : float;
  silenceThreshold : float;
  minSpeechDuration : Z;
  minSilenceDuration : Z;
  speechStartTime : Z;
  silenceStartTime : Z;
  isSpeaking : bool
}.

(** [constructor(energyThreshold, silenceThreshold, minSpeechDuration,
    minSilenceDuration)] *)
Definition new (energyThreshold silenceThreshold : float)
    (minSpeechDuration minSilenceDuration : Z) : t :=
  mk energyThreshold silenceThreshold minSpeechDuration minSilenceDuration
     0 0 false.

(** The constructor's default arguments. *)
Definition new_default : t := new 0.01%float 0.005%float 300 500.

(** [Math.sqrt(sum / audioData.length)] over the squares. *)
Definition calculateEnergy (audioData : list sample) : float :=
  let sum := fold_left (fun sum x => (sum + x * x)%float) audioData 0%float in
  PrimFloat.sqrt
    (sum / PrimFloat.of_uint63 (Uint63.of_Z (Float32Array.len audioData)))%float.

Definition processAudio (audioData : list sample) (timestamp : Z) (v : t)
  : bool * t :=
  let energy := calculateEnergy audioData in
  let now := timestamp in
  let v' :=
    if (energyThreshold v <? energy)%float then
      mk (energyThreshold v) (silenceThreshold v)
         (minSpeechDuration v) (minSilenceDuration v)
         (if negb (isSpeaking v) then now else speechStartTime v)
         0
         true
    else if (energy <? silenceThreshold v)%float then
      let v1 :=
        if isSpeaking v && (silenceStartTime v =? 0) then
          mk (energyThreshold v) (silenceThreshold v)
             (minSpeechDuration v) (minSilenceDuration v)
             (speechStartTime v) now (isSpeaking v)
        else v in
      if isSpeaking v1 && (silenceStartTime v1 >? 0)
         && (now - silenceStartTime v1 >? minSilenceDuration v1) then
        mk (energyThreshold v1) (silenceThreshold v1)
           (minSpeechDuration v1) (minSilenceDuration v1)
           0 0 false
      else v1
    else v in
  (isSpeaking v' && (now - speechStartTime v' >? minSpeechDuration v'), v').

(** A run of calls, one per (block, timestamp), oldest first: the values
    returned and the final state. *)
Fixpoint processAll (calls : list (list sample * Z)) (v : t) : list bool * t :=
  match calls with
  | [] => ([], v)
  | (audioData, timestamp) :: rest =>
      let (r, v1) := processAudio audioData timestamp v in
      let (rs, v2) := processAll rest v1 in
      (r :: rs, v2)
  end.

(** The two tests [processAudio] makes on a block. *)
Definition above_speech (v : t) (audioData : list sample) : bool :=
  (energyThreshold v <? calculateEnergy audioData)%float.

Definition below_silence (v : t) (audioData : list sample) : bool :=
  (calculateEnergy audioData <? silenceThreshold v)%float.

(** The four settings, which no call changes. *)
Definition same_settings (v v' : t) : Prop :=
  energyThreshold v' = energyThreshold v /\
  silenceThreshold v' = silenceThreshold v /\
  minSpeechDuration v' = minSpeechDuration v /\
  minSilenceDuration v' = minSilenceDuration v.

End VoiceActivityDetector.

(** ** AudioCaptureManager *)

Module AudioCaptureManager.

Record AudioCaptureConfig : Type := mkConfig {
  deviceId : string;
  sampleRate : Z;
  channels : Z;
  bufferSizeMs : Z
}.

(** The driver, as far as [startCapture] consults it: the boolean its
    [startCapture(config)] answers. *)
Record NativeAudioModule : Type := mkNative {
  native_startCapture : AudioCaptureConfig -> bool
}.

Record AudioChunk : Type := mkChunk {
  data : list sample;
  timestamp : Z;
  duration : Z;
  chunk_sampleRate : Z;
  chunk_channels : Z
}.

Record t : Type := mk {
  nativeModule : option NativeAudioModule;
  ringBuffer : option RingBuffer.t;
  vad : VoiceActivityDetector.t;
  isCapturing : bool;
  currentConfig : option AudioCaptureConfig;
  audioChunks : list AudioChunk;
  processingInterval : bool   (* is the drain timer armed *)
}.

Inductive event : Type :=
| captureStarted (config : AudioCaptureConfig)
| captureStopped
| bufferOverflow
| audioChunk (chunk : AudioChunk).

Inductive error : Type :=
| CaptureError (message : string)   (* ErrorHandler.createCaptureError *)
| RangeError.

Inductive result : Type :=
| Done
| Throw (e : error).

(** [startCapture(config)].  Sample rate and channel count are integers,
    so [Math.ceil] leaves their product as it is. *)
Definition startCapture (config : AudioCaptureConfig) (m : t)
  : result * t * list event :=
  if isCapturing m then
    (Throw (CaptureError "Audio capture already in progress"), m, [])
  else
    match nativeModule m with
    | None => (Throw (CaptureError "Native module not initialized"), m, [])
    | Some native =>
        let bufferSizeInSamples := sampleRate config * channels config * 10 in
        match RingBuffer.new bufferSizeInSamples with
        | None => (Throw RangeError, m, [])
        | Some rb =>
            let m1 := mk (nativeModule m) (Some rb) (vad m) (isCapturing m)
                         (currentConfig m) (audioChunks m)
                         (processingInterval m) in
            if negb (native_startCapture native config) then
              (Throw (CaptureError "Failed to start native audio capture"),
               m1, [])
            else
              (Done,
               mk (nativeModule m1) (ringBuffer m1) (vad m1) true
                  (Some config) [] true,
               [captureStarted config])
        end
    end.

(** [onAudioData(audioData)], on the samples [floatData] that the byte
    buffer decodes to. *)
Definition onAudioData (floatData : list sample) (m : t) : t * list event :=
  if negb (isCapturing m) then (m, [])
  else
    match ringBuffer m, currentConfig m with
    | Some rb, Some _ =>
        let (ok, rb') := RingBuffer.write floatData rb in
        (mk (nativeModule m) (Some rb') (vad m) (isCapturing m)
            (currentConfig m) (audioChunks m) (processingInterval m),
         if ok then [] else [bufferOverflow])
    | _, _ => (m, [])
    end.

(** The development mock of the driver: [startCapture: () => true]. *)
Definition mock_driver : NativeAudioModule := mkNative (fun _ => true).

(** The manager after [initialize()] on the mock. *)
Definition ready : t :=
  mk (Some mock_driver) None VoiceActivityDetector.new_default
     false None [] false.

(** A driver whose [startCapture] always answers [false]. *)
Definition refusing_driver : NativeAudioModule := mkNative (fun _ => false).

(** The manager after [initialize()] on that driver. *)
Definition initialized : t :=
  mk (Some refusing_driver) None VoiceActivityDetector.new_default
     false None [] false.

End AudioCaptureManager.

(** ** AudioDeviceManager *)

Module AudioDeviceManager.

Record AudioDevice : Type := mkDevice {
  id : string;
  name : string;
  isDefault : bool;
  isEnabled : bool;
  channels : Z;
  sampleRate : Z
}.

(** A [Map<string, AudioDevice>]: its entries in insertion order, which is
    the order [for ... of] and [values()] visit them in. *)
Definition DeviceMap : Type := list (string * AudioDevice).

Definition has (m : DeviceMap) (k : string) : bool :=
  existsb (fun e => String.eqb (fst e) k) m.

Definition get (m : DeviceMap) (k : string) : option AudioDevice :=
  option_map snd (find (fun e => String.eqb (fst e) k) m).

Definition values (m : DeviceMap) : list AudioDevice := map snd m.

(** [m.set(k, d)]: a key already present keeps its place. *)
Fixpoint set (m : DeviceMap) (k : string) (d : AudioDevice) : DeviceMap :=
  match m with
  | [] => [(k, d)]
  | (k', d') :: rest =>
      if String.eqb k' k then (k, d) :: rest else (k', d') :: set rest k d
  end.

(** The cache [refreshDeviceList] builds from the driver's list. *)
Definition refreshed (nativeDevices : list AudioDevice) : DeviceMap :=
  fold_left (fun m device => set m (id device) device) nativeDevices [].

Inductive change_type : Type :=
| added | removed | defaultChanged | stateChanged.

Record DeviceChangeEvent : Type := mkEvent {
  type : change_type;
  device : AudioDevice;
  timestamp : Z
}.

(** [oldDefault?.id !== newDefault?.id] *)
Definition id_differs (a b : option AudioDevice) : bool :=
  match a, b with
  | Some x, Some y => negb (String.eqb (id x) (id y))
  | None, None => false
  | _, _ => true
  end.

(** [detectDeviceChanges(oldDevices, newDevices)] with [Date.now()] read
    as [now]: the events emitted, in order. *)
Definition detectDeviceChanges (oldDevices newDevices : DeviceMap) (now : Z)
  : list DeviceChangeEvent :=
  let addedEvents :=
    flat_map (fun e : string * AudioDevice =>
                if negb (has oldDevices (fst e))
                then [mkEvent added (snd e) now] else [])
             newDevices in
  let removedEvents :=
    flat_map (fun e : string * AudioDevice =>
                if negb (has newDevices (fst e))
                then [mkEvent removed (snd e) now] else [])
             oldDevices in
  let oldDefault := find isDefault (values oldDevices) in
  let newDefault := find isDefault (values newDevices) in
  let defaultEvents :=
    if id_differs oldDefault newDefault then
      match newDefault with
      | Some d => [mkEvent defaultChanged d now]
      | None => []
      end
    else [] in
  let stateEvents :=
    flat_map (fun e : string * AudioDevice =>
                match get oldDevices (fst e) with
                | Some oldDevice =>
                    if negb (Bool.eqb (isEnabled oldDevice) (isEnabled (snd e)))
                    then [mkEvent stateChanged (snd e) now] else []
                | None => []
                end)
             newDevices in
  addedEvents ++ removedEvents ++ defaultEvents ++ stateEvents.

End AudioDeviceManager.

(** ** SpeechServiceManager: the segment window *)

Module SpeechServiceManager.

Import AudioCaptureManager.

Definition maxBufferDuration : Z := 30000.

(** [audioBuffer.reduce((sum, c) => sum + c.duration, 0)] *)
Definition totalDuration (audioBuffer : list AudioChunk) : Z :=
  fold_left (fun sum c => sum + duration c) audioBuffer 0.

(** The [while (removeDuration > 0 && audioBuffer.length > 0)] loop. *)
Fixpoint evict (removeDuration : Z) (audioBuffer : list AudioChunk)
  : list AudioChunk :=
  match audioBuffer with
  | [] => []
  | removed :: rest =>
      if removeDuration >? 0
      then evict (removeDuration - duration removed) rest
      else audioBuffer
  end.

(** [addAudioChunk(chunk)] on the window [audioBuffer]: the window it
    leaves.  The [audioChunkAdded] event it emits last carries [chunk] and
    does not depend on the window. *)
Definition addAudioChunk (chunk : AudioChunk) (audioBuffer : list AudioChunk)
  : list AudioChunk :=
  let pushed := audioBuffer ++ [chunk] in
  let total := totalDuration pushed in
  if total >? maxBufferDuration
  then evict (total - maxBufferDuration) pushed
  else pushed.

End SpeechServiceManager.

(** ** Array.prototype.slice *)

Module JsArray.

(** [a.slice(start)] *)
Definition slice_from {A : Type} (start : Z) (a : list A) : list A :=
  let len := Z.of_nat (length a) in
  let k := if start <? 0 then Z.max (len + start) 0 else Z.min start len in
  drop (Z.to_nat k) a.

(** [a.slice(0, end)] *)
Definition slice_to {A : Type} (final : Z) (a : list A) : list A :=
  let len := Z.of_nat (length a) in
  let k := if final <? 0 then Z.max (len + final) 0 else Z.min final len in
  take (Z.to_nat k) a.

End JsArray.

(** ** RingBuffer: what a caller observes, and a bounded queue to compare *)

Module RingBufferTrace.

Import RingBuffer.

Inductive outcome : Type :=
| Wrote (ok : bool)
| Gave (xs : list sample)
| Threw.

(** One call and what it returns. *)
Definition exec (o : op) (rb : t) : outcome * t :=
  match o with
  | Write data =>
      let (ok, rb') := write data rb in (Wrote ok, rb')
  | Read count =>
      match read (Z.of_nat count) rb with
      | Some (xs, rb') => (Gave xs, rb')
      | None => (Threw, rb)
      end
  end.

Fixpoint trace (ops : list op) (rb : t) : list outcome * t :=
  match ops with
  | [] => ([], rb)
  | o :: rest =>
      let (r, rb1) := exec o rb in
      let (rs, rb2) := trace rest rb1 in
      (r :: rs, rb2)
  end.

(** The reference: a queue of at most [capacity] samples that refuses a
    block it cannot take whole. *)
Definition queue_exec (capacity : Z) (o : op) (q : list sample)
  : outcome * list sample :=
  match o with
  | Write data =>
      if Float32Array.len data >? capacity - Float32Array.len q
      then (Wrote false, q)
      else (Wrote true, q ++ data)
  | Read count => (Gave (take count q), drop count q)
  end.

Fixpoint queue_trace (capacity : Z) (ops : list op) (q : list sample)
  : list outcome * list sample :=
  match ops with
  | [] => ([], q)
  | o :: rest =>
      let (r, q1) := queue_exec capacity o q in
      let (rs, q2) := queue_trace capacity rest q1 in
      (r :: rs, q2)
  end.

End RingBufferTrace.

(** ** AudioCaptureManager: stop, cleanup, drain, history *)

Module AudioCaptureLifecycle.

Import AudioCaptureManager.

(** [stopCapture()].  The driver's answer to [stopCapture] is not looked
    at. *)
Definition stopCapture (m : t) : t * list event :=
  if negb (isCapturing m) then (m, [])
  else
    (mk (nativeModule m) None (vad m) false None (audioChunks m) false,
     [captureStopped]).

(** [cleanup()] *)
Definition cleanup (m : t) : t * list event :=
  let (m1, events) := stopCapture m in
  (mk None (ringBuffer m1) (vad m1) (isCapturing m1) (currentConfig m1)
      (audioChunks m1) (processingInterval m1),
   events).

(** [processAudioChunks()], one turn of the drain timer, with [Date.now()]
    read as [now] and the configured [transcriptionHistoryLimit] as
    [maxChunks].  Sample rate and channel count are integers, so
    [Math.floor] leaves their product as it is. *)
Definition processAudioChunks (now maxChunks : Z) (m : t)
  : result * t * list event :=
  match ringBuffer m, currentConfig m with
  | Some rb, Some config =>
      let samplesPerChunk := sampleRate config * channels config in
      let availableData := RingBuffer.getAvailableData rb in
      if availableData >=? samplesPerChunk then
        match RingBuffer.read samplesPerChunk rb with
        | None => (Throw RangeError, m, [])
        | Some (audioData, rb') =>
            let timestamp := now in
            let (hasVoice, vad') :=
              VoiceActivityDetector.processAudio audioData timestamp (vad m) in
            if hasVoice then
              let chunk :=
                mkChunk audioData timestamp 1000
                        (sampleRate config) (channels config) in
              let pushed := audioChunks m ++ [chunk] in
              let kept :=
                if Z.of_nat (length pushed) >? maxChunks
                then JsArray.slice_from (- maxChunks) pushed
                else pushed in
              (Done,
               mk (nativeModule m) (Some rb') vad' (isCapturing m)
                  (currentConfig m) kept (processingInterval m),
               [audioChunk chunk])
            else
              (Done,
               mk (nativeModule m) (Some rb') vad' (isCapturing m)
                  (currentConfig m) (audioChunks m) (processingInterval m),
               [])
        end
      else (Done, m, [])
  | _, _ => (Done, m, [])
  end.

(** [getRecentAudioChunks(durationSeconds)] with [Date.now()] read as
    [now]. *)
Definition getRecentAudioChunks (durationSeconds now : Z) (m : t)
  : list AudioChunk :=
  let cutoffTime := now - durationSeconds * 1000 in
  List.filter (fun chunk => timestamp chunk >? cutoffTime) (audioChunks m).

(** Chunks as the drain makes them: one second each. *)
Definition one_second (chunk : AudioChunk) : Prop := duration chunk = 1000.

End AudioCaptureLifecycle.

(** ** AudioDeviceManager: the cache and its queries *)

Module DeviceCache.

Import AudioDeviceManager.

Record t : Type := mk {
  devices : DeviceMap;
  defaultDeviceId : option string
}.

(** The loop of [refreshDeviceList] over the list [nativeDevices] the
    driver answers, from the cache [c]. *)
Definition refresh_from (c : t) (nativeDevices : list AudioDevice) : t :=
  fold_left
    (fun c device =>
       mk (set (devices c) (id device) device)
          (if isDefault device then Some (id device) else defaultDeviceId c))
    nativeDevices c.

(** [refreshDeviceList()]: the cache is emptied, the default forgotten, and
    the loop run; what it leaves does not depend on what the cache held. *)
Definition refreshDeviceList (nativeDevices : list AudioDevice) : t :=
  refresh_from (mk [] None) nativeDevices.

(** Entries are filed under the id of their device. *)
Definition keyed (m : DeviceMap) : Prop :=
  Forall (fun e => fst e = id (snd e)) m.

(** A string in a condition: the empty string counts as false. *)
Definition truthy (s : string) : bool := negb (String.eqb s "").

(** [listDevices()], without properties. *)
Definition listDevices (nativeDevices : list AudioDevice)
  : list AudioDevice * t :=
  let c := refreshDeviceList nativeDevices in
  (values (devices c), c).

(** [getDevice(deviceId)], without properties. *)
Definition getDevice (deviceId : string) (nativeDevices : list AudioDevice)
  : option AudioDevice * t :=
  let c := refreshDeviceList nativeDevices in
  (get (devices c) deviceId, c).

(** [getDefaultDevice()] *)
Definition getDefaultDevice (nativeDevices : list AudioDevice)
  : option AudioDevice * t :=
  let c := refreshDeviceList nativeDevices in
  let firstEnabled := find isEnabled (values (devices c)) in
  (match defaultDeviceId c with
   | Some k => if truthy k then get (devices c) k else firstEnabled
   | None => firstEnabled
   end,
   c).

(** [isDeviceAvailable(deviceId)] *)
Definition isDeviceAvailable (deviceId : string)
    (nativeDevices : list AudioDevice) : bool * t :=
  let (device, c) := getDevice deviceId nativeDevices in
  (match device with
   | Some d => isEnabled d
   | None => false
   end,
   c).

End DeviceCache.

(** ** SpeechServiceManager: combining chunks, transcribing, transcripts *)

Module TypedArraySet.

(** [target.set(source, offset)]: a RangeError ([None]) when the source
    does not fit at the offset. *)
Definition set_at (target source : list sample) (offset : Z)
  : option (list sample) :=
  if (offset <? 0)
     || (Float32Array.len target <? offset + Float32Array.len source)
  then None
  else Some (take (Z.to_nat offset) target ++ source ++
             drop (Z.to_nat (offset + Float32Array.len source)) target).

End TypedArraySet.

Module WhisperService.

(** The [for] loop of [combineAudioChunks]. *)
Fixpoint combine_loop (chunks : list AudioCaptureManager.AudioChunk)
    (combined : list sample) (offset : Z) : option (list sample) :=
  match chunks with
  | [] => Some combined
  | chunk :: rest =>
      match TypedArraySet.set_at combined (AudioCaptureManager.data chunk) offset with
      | None => None
      | Some combined' =>
          combine_loop rest combined'
            (offset + Float32Array.len (AudioCaptureManager.data chunk))
      end
  end.

(** [combineAudioChunks(chunks)]; [None] is a RangeError. *)
Definition combineAudioChunks (chunks : list AudioCaptureManager.AudioChunk)
  : option (list sample) :=
  if Z.of_nat (length chunks) =? 0 then Float32Array.make 0
  else
    let totalLength :=
      fold_left (fun sum chunk =>
                   sum + Float32Array.len (AudioCaptureManager.data chunk))
                chunks 0 in
    match Float32Array.make totalLength with
    | None => None
    | Some combined => combine_loop chunks combined 0
    end.

End WhisperService.

Module TranscriptionResult.

(** Without the optional [segments]. *)
Record t : Type := mk {
  text : string;
  confidence : float;
  service : string;
  timestamp : Z;
  language : option string
}.

End TranscriptionResult.

Module Transcript.

Record t : Type := mk {
  id : string;
  text : string;
  timestamp : Z;
  service : string;
  confidence : float;
  audioChunks : Z;
  duration : Z
}.

End Transcript.

Module TranscriptionRequest.

Record t : Type := mk {
  service : string;
  language : option string;
  continuous : option bool;
  audioData : option (list AudioCaptureManager.AudioChunk)
}.

End TranscriptionRequest.

Module SpeechServiceState.

Import AudioCaptureManager.

Inductive error : Type :=
| SpeechServiceError (message : string).

(** What [transcribe] of a speech service does with chunks and language:
    a result, or a throw. *)
Inductive service_answer : Type :=
| Transcribed (result : TranscriptionResult.t)
| Failed (e : error).

(** A speech service, as far as the manager's [transcribe] consults it. *)
Record SpeechService : Type := mkService {
  isAvailable : bool;
  service_transcribe : list AudioChunk -> option string -> service_answer
}.

Record t : Type := mk {
  services : gmap string SpeechService;
  transcripts : list Transcript.t;
  isInitialized : bool;
  continuousTranscription : bool;
  audioBuffer : list AudioChunk
}.

Inductive event : Type :=
| transcriptionComplete (result : TranscriptionResult.t)
                        (transcript : Transcript.t)
| transcriptionError (e : error)
| continuousTranscriptionStarted (service : string) (language : option string)
| continuousTranscriptionStopped.

Inductive outcome : Type :=
| Returned (result : TranscriptionResult.t)
| Threw (e : error).

(** [transcribe(request)], with the id [generateTranscriptId()] makes read
    as [newId] and the configured [transcriptionHistoryLimit] as
    [maxTranscripts]. *)
Definition transcribe (request : TranscriptionRequest.t) (newId : string)
    (maxTranscripts : Z) (s : t) : outcome * t * list event :=
  if negb (isInitialized s) then
    (Threw (SpeechServiceError "Speech Service Manager not initialized"), s, [])
  else
    let caught (e : error) := (Threw e, s, [transcriptionError e]) in
    match services s !! TranscriptionRequest.service request with
    | None =>
        caught (SpeechServiceError
                  ("Service " ++ TranscriptionRequest.service request
                   ++ " not available"))
    | Some service =>
        if negb (isAvailable service) then
          caught (SpeechServiceError
                    ("Service " ++ TranscriptionRequest.service request
                     ++ " is not available"))
        else
          let audioChunks :=
            match TranscriptionRequest.audioData request with
            | Some chunks => chunks
            | None => audioBuffer s
            end in
          if Z.of_nat (length audioChunks) =? 0 then
            caught (SpeechServiceError
                      "No audio data available for transcription")
          else
            match service_transcribe service audioChunks
                    (TranscriptionRequest.language request) with
            | Failed e => caught e
            | Transcribed result =>
                let transcript :=
                  Transcript.mk newId
                    (TranscriptionResult.text result)
                    (TranscriptionResult.timestamp result)
                    (TranscriptionResult.service result)
                    (TranscriptionResult.confidence result)
                    (Z.of_nat (length audioChunks))
                    (fold_left (fun sum chunk => sum + duration chunk)
                               audioChunks 0) in
                let pushed := transcripts s ++ [transcript] in
                let kept :=
                  if Z.of_nat (length pushed) >? maxTranscripts
                  then JsArray.slice_from (- maxTranscripts) pushed
                  else pushed in
                let continuous :=
                  match TranscriptionRequest.continuous request with
                  | Some b => b
                  | None => false
                  end in
                (Returned result,
                 mk (services s) kept (isInitialized s)
                    (continuousTranscription s)
                    (if negb continuous then [] else audioBuffer s),
                 [transcriptionComplete result transcript])
            end
    end.

(** [startContinuousTranscription(service, language)] *)
Definition startContinuousTranscription (service : string)
    (language : option string) (s : t) : t * list event :=
  (mk (services s) (transcripts s) (isInitialized s) true [],
   [continuousTranscriptionStarted service language]).

(** [stopContinuousTranscription()] *)
Definition stopContinuousTranscription (s : t) : t * list event :=
  (mk (services s) (transcripts s) (isInitialized s) false (audioBuffer s),
   [continuousTranscriptionStopped]).

(** The manager's [addAudioChunk(chunk)]. *)
Definition addAudioChunk (chunk : AudioChunk) (s : t) : t :=
  mk (services s) (transcripts s) (isInitialized s) (continuousTranscription s)
     (SpeechServiceManager.addAudioChunk chunk (audioBuffer s)).

(** [getRecentTranscripts(limit)]: a limit left out, or 0, is no limit. *)
Definition getRecentTranscripts (limit : option Z) (s : t)
  : list Transcript.t :=
  let recentTranscripts := rev (transcripts s) in
  match limit with
  | Some n => if n =? 0 then recentTranscripts
              else JsArray.slice_to n recentTranscripts
  | None => recentTranscripts
  end.

(** The answer of the development mock of the local Whisper model, with
    [Date.now()] read as 0. *)
Definition mock_result (language : option string) : TranscriptionResult.t :=
  TranscriptionResult.mk "Mock transcription from local Whisper model"
    0.90%float "whisper-local" 0
    (match language with Some l => Some l | None => Some "en" end).

Definition mock_whisper : SpeechService :=
  mkService true (fun _ language => Transcribed (mock_result language)).

(** A service whose [transcribe] always throws. *)
Definition deaf_service : SpeechService :=
  mkService true
    (fun _ _ => Failed (SpeechServiceError "Whisper transcription failed")).

End SpeechServiceState.

(** ** ErrorHandler: retry bookkeeping *)

Module ErrorHandler.

(** An [AudioMCPError], without its free-form [details]. *)
Record AudioMCPError : Type := mkError {
  code : string;
  message : string;
  recoverable : bool
}.

Definition createDeviceError (message : string) : AudioMCPError :=
  mkError "DEVICE_NOT_FOUND" message true.

Definition createCaptureError (message : string) : AudioMCPError :=
  mkError "AUDIO_CAPTURE_FAILED" message true.

Definition createSpeechServiceError (message : string) : AudioMCPError :=
  mkError "SPEECH_SERVICE_ERROR" message true.

Definition createConfigError (message : string) : AudioMCPError :=
  mkError "CONFIGURATION_ERROR" message false.

Definition createNetworkError (message : string) : AudioMCPError :=
  mkError "NETWORK_ERROR" message true.

(** The two static maps.  A count is only ever 0 plus a number of
    increments. *)
Record t : Type := mk {
  errorCounts : gmap string nat;
  lastErrors : gmap string Z
}.

(** The delay [retryWithBackoff] waits before attempt [attemptNumber]:
    [Math.min(1000 * Math.pow(2, attemptNumber), 30000)]. *)
Definition retryDelay (attemptNumber : nat) : Z :=
  Z.min (1000 * 2 ^ Z.of_nat attemptNumber) 30000.

Definition errorKey (context : string) (error : AudioMCPError) : string :=
  (context ++ ":" ++ code error)%string.

(** [handleRecoverableError(error, context, retryCallback)] with
    [Date.now()] read as [now].  [retryCallback] is [None] when no callback
    is passed, and else says whether the callback, if it is called,
    succeeds.  The answer is the boolean the promise resolves to, and the
    delay waited before the callback when it was called. *)
Definition handleRecoverableError (error : AudioMCPError) (context : string)
    (retryCallback : option bool) (now : Z) (s : t) : bool * option Z * t :=
  let key := errorKey context error in
  let count := default O (errorCounts s !! key) in
  let s1 := mk (<[key := S count]> (errorCounts s))
               (<[key := now]> (lastErrors s)) in
  if (5 <=? count)%nat then (false, None, s1)
  else
    match retryCallback with
    | Some succeeds =>
        if recoverable error then
          if succeeds then
            (true, Some (retryDelay count),
             mk (delete key (errorCounts s1)) (lastErrors s1))
          else (false, Some (retryDelay count), s1)
        else (false, None, s1)
    | None => (false, None, s1)
    end.

(** The same error in the same context, once per entry of [calls]
    (callback outcome and time of the call). *)
Fixpoint handleAll (error : AudioMCPError) (context : string)
    (calls : list (option bool * Z)) (s : t)
  : list (bool * option Z) * t :=
  match calls with
  | [] => ([], s)
  | (retryCallback, now) :: rest =>
      let '(answer, delay, s1) :=
        handleRecoverableError error context retryCallback now s in
      let (answers, s2) := handleAll error context rest s1 in
      ((answer, delay) :: answers, s2)
  end.

Definition maxAge : Z := 5 * 60 * 1000.

(** [cleanupErrorTracking()] with [Date.now()] read as [now]: the loop over
    the entries of [lastErrors]. *)
Definition cleanupErrorTracking (now : Z) (s : t) : t :=
  map_fold
    (fun key timestamp acc =>
       if now - timestamp >? maxAge
       then mk (delete key (errorCounts acc)) (delete key (lastErrors acc))
       else acc)
    s (lastErrors s).

(** Every key that is counted has a time of last error. *)
Definition tracked (s : t) : Prop :=
  forall key, is_Some (errorCounts s !! key) -> is_Some (lastErrors s !! key).

End ErrorHandler.

(** * Properties *)

(** ** Typed-array cells *)

Module Float32ArrayFacts.

Import Float32Array.

Lemma len_store a i x : len (store a i x) = len a.
Proof.
  unfold len, store. destruct (0 <=? i); [rewrite length_insert|]; reflexivity.
Qed.

Lemma load_store_eq a i x : 0 <= i < len a -> load (store a i x) i = x.
Proof.
  unfold len, load, store. intros [H0 H1].
  destruct (Z.leb_spec 0 i); [|lia].
  rewrite list_lookup_insert_eq by lia. reflexivity.
Qed.

Lemma load_store_ne a i j x : i <> j -> load (store a i x) j = load a j.
Proof.
  unfold load, store. intros Hij.
  destruct (Z.leb_spec 0 j); [|reflexivity].
  destruct (Z.leb_spec 0 i); [|reflexivity].
  rewrite list_lookup_insert_ne by lia. reflexivity.
Qed.

Lemma make_some n : 0 <= n -> exists a, make n = Some a /\ len a = n.
Proof.
  intros Hn. unfold make. destruct (Z.ltb_spec n 0); [lia|].
  eexists; split; [reflexivity|].
  unfold len. rewrite length_replicate. lia.
Qed.

End Float32ArrayFacts.

(** ** Cursor arithmetic *)

Module Cursor.

(** On cursors inside the buffer [%] is a conditional subtraction. *)
Lemma rem_wrap n x :
  0 < n -> 0 <= x < 2 * n -> Z.rem x n = if x <? n then x else x - n.
Proof.
  intros Hn Hx. rewrite Z.rem_mod_nonneg by lia.
  destruct (Z.ltb_spec x n).
  - apply Z.mod_small; lia.
  - symmetry. apply (Z.mod_unique_pos x n 1); lia.
Qed.

Lemma rem_range n x : 0 < n -> 0 <= x -> 0 <= Z.rem x n < n.
Proof.
  intros Hn Hx. rewrite Z.rem_mod_nonneg by lia. apply Z.mod_pos_bound; lia.
Qed.

(** Stepping a cursor and then moving [i] on is moving [i + 1] on. *)
Lemma rem_succ_add n r i :
  0 < n -> 0 <= r < n -> 0 <= i ->
  Z.rem (Z.rem (r + 1) n + i) n = Z.rem (r + (i + 1)) n.
Proof.
  intros Hn Hr Hi.
  pose proof (rem_range n (r + 1) Hn ltac:(lia)).
  rewrite !Z.rem_mod_nonneg by lia.
  rewrite Zplus_mod_idemp_l. f_equal. lia.
Qed.

(** Two offsets below the capacity land on different cells. *)
Lemma rem_add_inj n r i j :
  0 < n -> 0 <= r < n -> 0 <= i < n -> 0 <= j < n ->
  Z.rem (r + i) n = Z.rem (r + j) n -> i = j.
Proof.
  intros Hn Hr Hi Hj.
  rewrite !rem_wrap by lia.
  destruct (Z.ltb_spec (r + i) n), (Z.ltb_spec (r + j) n); lia.
Qed.

End Cursor.

(** ** RingBuffer: invariant, FIFO contents *)

Module RingBufferFacts.

Import Float32Array Float32ArrayFacts RingBuffer.

Lemma avail_wrap rb :
  wf rb ->
  getAvailableData rb =
    if readPos rb <=? writePos rb
    then writePos rb - readPos rb
    else writePos rb - readPos rb + size rb.
Proof.
  intros (Hn & _ & Hw & Hr). unfold getAvailableData.
  rewrite Cursor.rem_wrap by lia.
  destruct (Z.ltb_spec (writePos rb - readPos rb + size rb) (size rb)),
           (Z.leb_spec (readPos rb) (writePos rb)); lia.
Qed.

Lemma avail_range rb : wf rb -> 0 <= getAvailableData rb < size rb.
Proof.
  intros H. rewrite (avail_wrap rb H). destruct H as (Hn & _ & Hw & Hr).
  destruct (Z.leb_spec (readPos rb) (writePos rb)); lia.
Qed.

Lemma space_range rb : wf rb -> 0 <= getAvailableSpace rb < size rb.
Proof.
  intros H. pose proof (avail_range rb H). unfold getAvailableSpace. lia.
Qed.

(** The write cursor sits right after the pending samples. *)
Lemma writePos_offset rb :
  wf rb -> Z.rem (readPos rb + getAvailableData rb) (size rb) = writePos rb.
Proof.
  intros H. rewrite (avail_wrap rb H). destruct H as (Hn & _ & Hw & Hr).
  rewrite Cursor.rem_wrap by (destruct (Z.leb_spec (readPos rb) (writePos rb)); lia).
  destruct (Z.leb_spec (readPos rb) (writePos rb));
    match goal with |- context [?a <? ?b] => destruct (Z.ltb_spec a b) end; lia.
Qed.

Lemma new_wf n : 0 < n -> exists rb, new n = Some rb /\ wf rb /\ size rb = n
                                 /\ getAvailableData rb = 0.
Proof.
  intros Hn. unfold new.
  destruct (make_some n ltac:(lia)) as (a & -> & Ha).
  eexists; split; [reflexivity|]. unfold wf, getAvailableData; simpl.
  repeat split; try lia.
  rewrite Cursor.rem_wrap by lia. destruct (Z.ltb_spec (0 - 0 + n) n); lia.
Qed.

(** *** One sample in *)

Lemma put_wf x rb : wf rb -> wf (put x rb).
Proof.
  intros (Hn & Hl & Hw & Hr). unfold wf, put; simpl.
  rewrite len_store. pose proof (Cursor.rem_range (size rb) (writePos rb + 1)).
  repeat split; lia.
Qed.

Lemma put_avail x rb :
  wf rb -> 1 <= getAvailableSpace rb ->
  getAvailableData (put x rb) = getAvailableData rb + 1.
Proof.
  intros H Hs. pose proof (put_wf x rb H) as H'.
  unfold getAvailableSpace in Hs. revert Hs.
  rewrite (avail_wrap _ H'), (avail_wrap _ H).
  destruct H as (Hn & _ & Hw & Hr). simpl.
  rewrite Cursor.rem_wrap by lia.
  destruct (Z.ltb_spec (writePos rb + 1) (size rb));
    repeat match goal with |- context [?a <=? ?b] => destruct (Z.leb_spec a b) end;
    lia.
Qed.

Lemma put_contents x rb :
  wf rb -> 1 <= getAvailableSpace rb ->
  contents (put x rb) = contents rb ++ [x].
Proof.
  intros H Hs. unfold contents.
  rewrite (put_avail x rb H Hs).
  pose proof (avail_range rb H) as Ha.
  replace (Z.to_nat (getAvailableData rb + 1))
    with (Z.to_nat (getAvailableData rb) + 1)%nat by lia.
  rewrite seq_app, map_app. simpl. f_equal.
  - apply map_ext_in. intros i Hi. apply in_seq in Hi.
    apply load_store_ne. intros E.
    rewrite <- (writePos_offset rb H) in E.
    destruct H as (Hn & _ & Hw & Hr). unfold getAvailableSpace in Hs.
    apply Cursor.rem_add_inj in E; lia.
  - f_equal. rewrite Z2Nat.id by lia. rewrite (writePos_offset rb H).
    destruct H as (Hn & Hl & Hw & Hr). apply load_store_eq. lia.
Qed.

(** *** One sample out *)

Lemma take1_wf rb : wf rb -> wf (snd (take1 rb)).
Proof.
  intros (Hn & Hl & Hw & Hr). unfold wf, take1; simpl.
  pose proof (Cursor.rem_range (size rb) (readPos rb + 1)).
  repeat split; lia.
Qed.

Lemma take1_avail rb :
  wf rb -> 1 <= getAvailableData rb ->
  getAvailableData (snd (take1 rb)) = getAvailableData rb - 1.
Proof.
  intros H Hs. pose proof (take1_wf rb H) as H'. revert Hs.
  rewrite (avail_wrap _ H'), (avail_wrap _ H).
  destruct H as (Hn & _ & Hw & Hr). simpl.
  rewrite Cursor.rem_wrap by lia.
  destruct (Z.ltb_spec (readPos rb + 1) (size rb));
    repeat match goal with |- context [?a <=? ?b] => destruct (Z.leb_spec a b) end;
    lia.
Qed.

Lemma take1_contents rb :
  wf rb -> 1 <= getAvailableData rb ->
  contents rb = fst (take1 rb) :: contents (snd (take1 rb)).
Proof.
  intros H Hs. unfold contents at 1 2.
  rewrite (take1_avail rb H Hs).
  replace (Z.to_nat (getAvailableData rb))
    with (S (Z.to_nat (getAvailableData rb - 1))) by lia.
  cbn [seq]. rewrite <- seq_shift. cbn [map]. rewrite map_map.
  destruct H as (Hn & Hl & Hw & Hr). f_equal.
  - unfold take1; simpl. f_equal.
    rewrite Z.add_0_r, Cursor.rem_wrap by lia.
    destruct (Z.ltb_spec (readPos rb) (size rb)); lia.
  - apply map_ext. intros i. unfold take1; simpl buffer; simpl readPos; simpl size.
    f_equal. rewrite Cursor.rem_succ_add by lia. f_equal. lia.
Qed.

(** *** The loops *)

Lemma contents_length rb :
  length (contents rb) = Z.to_nat (getAvailableData rb).
Proof. unfold contents. rewrite length_map, length_seq. reflexivity. Qed.

Lemma lookup_map {A B} (f : A -> B) (l : list A) (i : nat) :
  map f l !! i = option_map f (l !! i).
Proof.
  revert i. induction l as [|a l IH]; intros [|i]; simpl; auto.
Qed.

Lemma write_loop_spec data : forall rb,
  wf rb -> len data <= getAvailableSpace rb ->
  wf (write_loop data rb) /\
  contents (write_loop data rb) = contents rb ++ data /\
  getAvailableData (write_loop data rb) = getAvailableData rb + len data /\
  readPos (write_loop data rb) = readPos rb /\
  size (write_loop data rb) = size rb /\
  writePos (write_loop data rb) = Z.rem (writePos rb + len data) (size rb).
Proof.
  induction data as [|x rest IH]; intros rb H Hs.
  - simpl. rewrite app_nil_r. unfold len; simpl.
    pose proof H as (Hn & Hl & Hw & Hr).
    split; [exact H|]. repeat split; try lia.
    rewrite Cursor.rem_wrap by lia.
    match goal with |- context [?a <? ?b] => destruct (Z.ltb_spec a b) end; lia.
  - assert (len (x :: rest) = len rest + 1) as Hlen
        by (unfold len; simpl length; lia).
    rewrite Hlen in *.
    pose proof (space_range rb H) as Hsp.
    assert (0 <= len rest) by (unfold len; lia).
    assert (1 <= getAvailableSpace rb) as H1 by lia.
    pose proof (put_wf x rb H) as Hp.
    pose proof (put_avail x rb H H1) as Ha.
    pose proof (put_contents x rb H H1) as Hc.
    destruct (IH (put x rb) Hp) as (I1 & I2 & I3 & I4 & I5 & I6).
    { unfold getAvailableSpace in *. rewrite Ha. simpl size. lia. }
    simpl write_loop. repeat split; try apply I1.
    + rewrite I2, Hc, <- app_assoc. reflexivity.
    + lia.
    + rewrite I4. reflexivity.
    + rewrite I5. reflexivity.
    + rewrite I6. simpl. destruct H as (Hn & Hl & Hw & Hr).
      apply Cursor.rem_succ_add; lia.
Qed.

Lemma read_loop_spec n : forall rb,
  wf rb -> Z.of_nat n <= getAvailableData rb ->
  fst (read_loop n rb) = take n (contents rb) /\
  contents (snd (read_loop n rb)) = drop n (contents rb) /\
  wf (snd (read_loop n rb)) /\
  getAvailableData (snd (read_loop n rb)) = getAvailableData rb - Z.of_nat n /\
  buffer (snd (read_loop n rb)) = buffer rb /\
  writePos (snd (read_loop n rb)) = writePos rb /\
  size (snd (read_loop n rb)) = size rb.
Proof.
  induction n as [|k IH]; intros rb H Hn.
  - simpl. repeat split; try apply H; lia.
  - assert (1 <= getAvailableData rb) as H1 by lia.
    pose proof (take1_wf rb H) as Hp.
    pose proof (take1_avail rb H H1) as Ha.
    pose proof (take1_contents rb H H1) as Hc.
    cbn [read_loop]. destruct (take1 rb) as [x rb1] eqn:E1.
    simpl fst in *; simpl snd in *.
    destruct (IH rb1 Hp ltac:(lia)) as (I1 & I2 & I3 & I4 & I5 & I6 & I7).
    destruct (read_loop k rb1) as [xs rb2] eqn:E2.
    simpl fst in *; simpl snd in *.
    assert (rb1 = snd (take1 rb)) as Hrb1 by (rewrite E1; reflexivity).
    rewrite Hrb1 in I5, I6, I7. unfold take1 in I5, I6, I7.
    simpl in I5, I6, I7.
    rewrite Hc. simpl take; simpl drop.
    repeat split; try apply I3; try congruence; try lia.
Qed.

(** [read] at a natural count never throws on a well-formed buffer. *)
Lemma read_spec (count : nat) rb :
  wf rb ->
  exists xs rb',
    read (Z.of_nat count) rb = Some (xs, rb') /\
    xs = take count (contents rb) /\
    contents rb' = drop count (contents rb) /\
    len xs = Z.min (Z.of_nat count) (getAvailableData rb) /\
    wf rb' /\
    getAvailableData rb' = getAvailableData rb - len xs /\
    size rb' = size rb.
Proof.
  intros H. pose proof (avail_range rb H) as Ha. unfold read.
  set (toRead := Z.min (Z.of_nat count) (getAvailableData rb)).
  assert (0 <= toRead) as Ht by (unfold toRead; lia).
  destruct (Z.ltb_spec toRead 0); [lia|].
  destruct (read_loop_spec (Z.to_nat toRead) rb H ltac:(unfold toRead; lia))
    as (I1 & I2 & I3 & I4 & _ & _ & I7).
  destruct (read_loop (Z.to_nat toRead) rb) as [xs rb'] eqn:E.
  simpl fst in *; simpl snd in *.
  pose proof (contents_length rb) as Hcl.
  assert (take (Z.to_nat toRead) (contents rb) = take count (contents rb)) as Et.
  { destruct (Z.le_ge_cases (Z.of_nat count) (getAvailableData rb)).
    - f_equal. unfold toRead. lia.
    - rewrite !take_ge by (unfold toRead; lia). reflexivity. }
  assert (drop (Z.to_nat toRead) (contents rb) = drop count (contents rb)) as Ed.
  { destruct (Z.le_ge_cases (Z.of_nat count) (getAvailableData rb)).
    - f_equal. unfold toRead. lia.
    - rewrite !drop_ge by (unfold toRead; lia). reflexivity. }
  assert (len xs = toRead) as El.
  { unfold len. rewrite I1, length_take, Hcl. unfold toRead. lia. }
  exists xs, rb'. repeat split; try apply I3; try congruence; try lia.
Qed.

Lemma write_spec data rb :
  wf rb -> len data <= getAvailableSpace rb ->
  exists rb',
    write data rb = (true, rb') /\ wf rb' /\
    contents rb' = contents rb ++ data /\
    getAvailableData rb' = getAvailableData rb + len data /\
    readPos rb' = readPos rb /\ size rb' = size rb /\
    writePos rb' = Z.rem (writePos rb + len data) (size rb).
Proof.
  intros H Hs. unfold write.
  destruct (Z.gtb_spec (len data) (getAvailableSpace rb)); [lia|].
  exists (write_loop data rb). split; [reflexivity|].
  apply write_loop_spec; assumption.
Qed.

Lemma write_overflow data rb :
  getAvailableSpace rb < len data -> write data rb = (false, rb).
Proof.
  intros Hs. unfold write.
  destruct (Z.gtb_spec (len data) (getAvailableSpace rb)); [reflexivity|lia].
Qed.

End RingBufferFacts.

(** ** RingBuffer: the contract of [write] and [read] *)

Module RingBufferCorrect.

Import Float32Array Float32ArrayFacts RingBuffer RingBufferFacts.

(** Every run keeps the buffer well formed, keeps its capacity, and keeps
    the pending count equal to accepted minus handed out. *)
Lemma run_invariant ops : forall rb c,
  wf rb -> getAvailableData rb = written c - returned c ->
  wf (fst (run ops (rb, c))) /\
  size (fst (run ops (rb, c))) = size rb /\
  getAvailableData (fst (run ops (rb, c))) =
    written (snd (run ops (rb, c))) - returned (snd (run ops (rb, c))).
Proof.
  induction ops as [|o ops IH]; intros rb c H Hc.
  - simpl. auto.
  - unfold run in *. cbn [fold_left].
    destruct o as [data|count]; cbn [step].
    + destruct (Z.lt_ge_cases (getAvailableSpace rb) (len data)) as [Hs|Hs].
      * rewrite (write_overflow data rb Hs). apply IH; assumption.
      * destruct (write_spec data rb H Hs) as (rb' & E & W1 & _ & W3 & _ & W5 & _).
        rewrite E.
        destruct (IH rb' (mkTally (written c + len data) (returned c)) W1)
          as (I1 & I2 & I3); [simpl; lia|].
        split; [exact I1|split; [congruence|exact I3]].
    + destruct (read_spec count rb H) as (xs & rb' & E & _ & _ & _ & R4 & R5 & R6).
      rewrite E.
      destruct (IH rb' (mkTally (written c) (returned c + len xs)) R4)
        as (I1 & I2 & I3); [simpl; lia|].
      split; [exact I1|split; [congruence|exact I3]].
Qed.

(** C1.  After any sequence of writes and reads on a fresh buffer of
    capacity [N], [getAvailableData] and [getAvailableSpace] are
    non-negative and sum to [N - 1]; the samples pending are exactly those
    accepted by [write] and not yet handed out by [read]; and a further
    [read(count)] returns exactly [min(count, getAvailableData())]
    samples, hence never more than are pending. *)
Theorem available_space_read_count (N : Z) (ops : list op) :
  0 < N ->
  exists rb0,
    new N = Some rb0 /\
    let rb := fst (run ops (rb0, mkTally 0 0)) in
    let c := snd (run ops (rb0, mkTally 0 0)) in
    getAvailableData rb + getAvailableSpace rb = N - 1 /\
    0 <= getAvailableData rb /\
    0 <= getAvailableSpace rb /\
    getAvailableData rb = written c - returned c /\
    forall count : nat,
    exists xs rb',
      read (Z.of_nat count) rb = Some (xs, rb') /\
      len xs = Z.min (Z.of_nat count) (getAvailableData rb) /\
      len xs <= written c - returned c.
Proof.
  intros HN. destruct (new_wf N HN) as (rb0 & E & H0 & Hs0 & Ha0).
  exists rb0. split; [exact E|].
  destruct (run_invariant ops rb0 (mkTally 0 0) H0) as (I1 & I2 & I3);
    [simpl; lia|].
  cbv zeta.
  pose proof (avail_range _ I1). pose proof (space_range _ I1).
  repeat split; try lia.
  - unfold getAvailableSpace. lia.
  - intros count.
    destruct (read_spec count _ I1) as (xs & rb' & R1 & _ & _ & R4 & _).
    exists xs, rb'. repeat split; [exact R1|exact R4|lia].
Qed.

Lemma available_space_read_count_witness :
  0 < 4 /\
  exists rb0,
    new 4 = Some rb0 /\
    let ops := [Write [1; 2]%float; Read 1; Write [3; 4; 5]%float; Read 5] in
    let rb := fst (run ops (rb0, mkTally 0 0)) in
    let c := snd (run ops (rb0, mkTally 0 0)) in
    getAvailableData rb + getAvailableSpace rb = 4 - 1 /\
    0 <= getAvailableData rb /\
    0 <= getAvailableSpace rb /\
    getAvailableData rb = written c - returned c /\
    forall count : nat,
    exists xs rb',
      read (Z.of_nat count) rb = Some (xs, rb') /\
      len xs = Z.min (Z.of_nat count) (getAvailableData rb) /\
      len xs <= written c - returned c.
Proof.
  split; [lia|].
  apply (available_space_read_count 4
           [Write [1; 2]%float; Read 1; Write [3; 4; 5]%float; Read 5]).
  lia.
Defined.

(** C2.  A block longer than [getAvailableSpace()] makes [write] answer
    [false] and leaves buffer and cursors as they were.  A block that fits
    a well-formed buffer is copied in whole, in order, into the cells
    from the old write cursor on; the write cursor advances by the block
    length (modulo the capacity) and the read cursor stays. *)
Theorem write_all_or_nothing (rb : t) (data : list sample) :
  (getAvailableSpace rb < len data -> write data rb = (false, rb)) /\
  (wf rb -> len data <= getAvailableSpace rb ->
   exists rb',
     write data rb = (true, rb') /\
     writePos rb' = Z.rem (writePos rb + len data) (size rb) /\
     readPos rb' = readPos rb /\
     size rb' = size rb /\
     contents rb' = contents rb ++ data /\
     forall (i : nat) (x : sample),
       data !! i = Some x ->
       load (buffer rb') (Z.rem (writePos rb + Z.of_nat i) (size rb)) = x).
Proof.
  split; [apply write_overflow|].
  intros H Hs.
  destruct (write_spec data rb H Hs) as (rb' & E & W1 & W2 & W3 & W4 & W5 & W6).
  exists rb'. repeat split; try assumption.
  intros i x Hi.
  pose proof (lookup_lt_Some _ _ _ Hi) as Hlt.
  pose proof (avail_range rb H) as Ha.
  pose proof (contents_length rb) as Hcl.
  assert (contents rb' !! (Z.to_nat (getAvailableData rb) + i)%nat = Some x) as L.
  { rewrite W2, lookup_app_r by lia.
    rewrite Hcl. replace (_ + i - _)%nat with i by lia. exact Hi. }
  unfold contents in L.
  rewrite lookup_map, lookup_seq_lt in L by (unfold len in W3; lia).
  simpl in L. injection L as L. rewrite <- L. f_equal.
  rewrite W4, W5. rewrite <- (writePos_offset rb H).
  destruct H as (Hn & _ & Hw & Hr).
  pose proof (Cursor.rem_range (size rb) (readPos rb + getAvailableData rb)).
  rewrite !Z.rem_mod_nonneg by lia.
  rewrite Zplus_mod_idemp_l. f_equal. lia.
Qed.

Lemma write_all_or_nothing_witness :
  let rb := mk [1; 0; 0; 0]%float 1 0 4 in
  write [2; 3; 4]%float rb = (false, rb) /\
  exists rb',
    write [2; 3]%float rb = (true, rb') /\
    writePos rb' = Z.rem (writePos rb + len [2; 3]%float) (size rb) /\
    readPos rb' = readPos rb /\
    size rb' = size rb /\
    contents rb' = contents rb ++ [2; 3]%float /\
    forall (i : nat) (x : sample),
      [2; 3]%float !! i = Some x ->
      load (buffer rb') (Z.rem (writePos rb + Z.of_nat i) (size rb)) = x.
Proof.
  intros rb. split.
  - apply (proj1 (write_all_or_nothing rb [2; 3; 4]%float)).
    vm_compute. reflexivity.
  - apply (proj2 (write_all_or_nothing rb [2; 3]%float)).
    + unfold wf, len; simpl. lia.
    + vm_compute. discriminate.
Defined.

(** C9, as the code has it.  On a well-formed buffer, [write(xs)] of a
    block that fits followed by [read(xs.length)] returns the first
    [xs.length] samples of the queue made of the samples pending before
    the write followed by [xs]: the oldest samples first.  That is [xs]
    itself when nothing was pending.  In both cases [getAvailableData()]
    is back at its value before the write. *)
Theorem write_then_read_fifo (rb : t) (xs : list sample) :
  wf rb -> len xs <= getAvailableSpace rb ->
  exists rb1 ys rb2,
    write xs rb = (true, rb1) /\
    read (len xs) rb1 = Some (ys, rb2) /\
    ys = take (length xs) (contents rb ++ xs) /\
    (getAvailableData rb = 0 -> ys = xs) /\
    getAvailableData rb2 = getAvailableData rb.
Proof.
  intros H Hs.
  destruct (write_spec xs rb H Hs) as (rb1 & E & W1 & W2 & W3 & _).
  destruct (read_spec (length xs) rb1 W1) as (ys & rb2 & R1 & R2 & _ & R4 & _ & R6 & _).
  exists rb1, ys, rb2.
  pose proof (avail_range rb H) as Ha.
  repeat split.
  - exact E.
  - exact R1.
  - rewrite R2, W2. reflexivity.
  - intros Hz. rewrite R2, W2.
    pose proof (contents_length rb) as Hcl. rewrite Hz in Hcl.
    destruct (contents rb); [|discriminate]. simpl.
    apply take_ge. lia.
  - rewrite R6, W3, R4, W3. unfold len. lia.
Qed.

Lemma write_then_read_fifo_witness :
  let rb := mk [1; 0; 0; 0]%float 1 0 4 in
  let xs := [2; 3]%float in
  exists rb1 ys rb2,
    write xs rb = (true, rb1) /\
    read (len xs) rb1 = Some (ys, rb2) /\
    ys = take (length xs) (contents rb ++ xs) /\
    (getAvailableData rb = 0 -> ys = xs) /\
    getAvailableData rb2 = getAvailableData rb.
Proof.
  intros rb xs. apply (write_then_read_fifo rb xs).
  - unfold wf, len; simpl. lia.
  - vm_compute. discriminate.
Defined.

(** C9 as stated fails.  A buffer of capacity 4 holds the one sample 1.0
    (the state [write([1.0])] leaves a fresh buffer in).  [write([2.0])]
    fits, and the [read(1)] after it returns [1.0], the older sample,
    not the block just written. *)
Lemma write_then_read_returns_older :
  let rb := mk [1; 0; 0; 0]%float 1 0 4 in
  let xs := [2]%float in
  (exists rb0, new 4 = Some rb0 /\ write [1]%float rb0 = (true, rb)) /\
  wf rb /\
  len xs <= getAvailableSpace rb /\
  exists rb1 ys rb2,
    write xs rb = (true, rb1) /\
    read (len xs) rb1 = Some (ys, rb2) /\
    ys = [1]%float /\
    ys <> xs.
Proof.
  intros rb xs. split; [|split; [|split]].
  - eexists. split; vm_compute; reflexivity.
  - unfold wf, len; simpl. lia.
  - vm_compute. discriminate.
  - exists (mk [1; 2; 0; 0]%float 2 0 4), [1]%float, (mk [1; 2; 0; 0]%float 2 1 4).
    repeat split; try (vm_compute; reflexivity).
    intros E. apply (f_equal (fun l => option_map Prim2SF (head l))) in E.
    vm_compute in E. discriminate.
Qed.

End RingBufferCorrect.

(** ** Ordering of energies *)

Module FloatOrder.

Lemma SFltb_chain a b c :
  SFltb a b = true -> SFltb b c = true -> SFltb c a = false.
Proof.
  unfold SFltb, SFcompare.
  destruct a as [sa|sa| |sa ma ea], b as [sb|sb| |sb mb eb],
           c as [sc|sc| |sc mc ec];
    try destruct sa; try destruct sb; try destruct sc; simpl; try congruence;
    rewrite ?Pos.compare_cont_spec; unfold Pos.switch_Eq;
    repeat match goal with
      | |- context [Z.compare ?x ?y] => destruct (Z.compare_spec x y)
      | |- context [Pos.compare ?x ?y] => destruct (Pos.compare_spec x y)
      end; simpl; try congruence; try lia.
Qed.

(** An energy below a threshold that is itself below a second threshold is
    not above the second. *)
Lemma ltb_chain (x y z : float) :
  (x <? y)%float = true -> (y <? z)%float = true -> (z <? x)%float = false.
Proof. rewrite !ltb_spec. apply SFltb_chain. Qed.

End FloatOrder.

(** ** VoiceActivityDetector: debounce timing *)

Module VoiceActivityDetectorCorrect.

Import VoiceActivityDetector.

Lemma processAudio_settings audioData now v :
  same_settings v (snd (processAudio audioData now v)).
Proof.
  unfold same_settings, processAudio. cbv zeta.
  repeat match goal with
         | |- context [if ?c then _ else _] => destruct c
         end; simpl; auto.
Qed.

(** A block above the speech threshold: speaking from now on, the speech
    start kept if already speaking, the silence start reset. *)
Lemma processAudio_loud audioData now v :
  above_speech v audioData = true ->
  processAudio audioData now v =
    (let start := if negb (isSpeaking v) then now else speechStartTime v in
     (now - start >? minSpeechDuration v,
      mk (energyThreshold v) (silenceThreshold v)
         (minSpeechDuration v) (minSilenceDuration v) start 0 true)).
Proof.
  unfold above_speech, processAudio. cbv zeta. intros ->. reflexivity.
Qed.

(** A block not above the speech threshold does nothing to a classifier
    that is not speaking, and the answer is [false]. *)
Lemma processAudio_idle audioData now v :
  above_speech v audioData = false ->
  isSpeaking v = false ->
  processAudio audioData now v = (false, v).
Proof.
  unfold above_speech, processAudio. cbv zeta. intros -> Hs.
  destruct (_ <? _)%float;
    repeat (progress (rewrite ?Hs; cbn [andb])); reflexivity.
Qed.

Lemma processAll_idle calls : forall v,
  isSpeaking v = false ->
  Forall (fun c => above_speech v (fst c) = false) calls ->
  processAll calls v = (map (fun _ => false) calls, v).
Proof.
  induction calls as [|[b ts] calls IH]; intros v Hs Hq; [reflexivity|].
  inversion Hq as [|? ? Hb Hrest]; subst. simpl in Hb.
  cbn [processAll]. rewrite (processAudio_idle b ts v Hb Hs).
  rewrite (IH v Hs Hrest). reflexivity.
Qed.

(** While speaking, blocks above the speech threshold are answered by the
    time elapsed since the speech start alone. *)
Lemma processAll_loud calls : forall v,
  isSpeaking v = true ->
  Forall (fun c => (energyThreshold v <? calculateEnergy (fst c))%float = true)
         calls ->
  fst (processAll calls v) =
    map (fun c => snd c - speechStartTime v >? minSpeechDuration v) calls.
Proof.
  induction calls as [|[b ts] calls IH]; intros v Hs Hl; [reflexivity|].
  inversion Hl as [|? ? Hb Hrest]; subst. simpl in Hb.
  cbn [processAll]. rewrite (processAudio_loud b ts v Hb). rewrite Hs. cbv zeta.
  cbn [negb].
  specialize (IH (mk (energyThreshold v) (silenceThreshold v)
                     (minSpeechDuration v) (minSilenceDuration v)
                     (speechStartTime v) 0 true) eq_refl Hrest).
  destruct (processAll calls _) as [rs v2]. simpl in IH. simpl.
  rewrite IH. reflexivity.
Qed.

(** While speaking, a block below the silence threshold (and so not above
    the speech threshold) either records the silence start and waits, or
    ends the speech. *)
Lemma processAudio_quiet audioData now v :
  above_speech v audioData = false ->
  below_silence v audioData = true ->
  isSpeaking v = true ->
  let start := if silenceStartTime v =? 0 then now else silenceStartTime v in
  processAudio audioData now v =
    if (start >? 0) && (now - start >? minSilenceDuration v) then
      (false,
       mk (energyThreshold v) (silenceThreshold v)
          (minSpeechDuration v) (minSilenceDuration v) 0 0 false)
    else
      (now - speechStartTime v >? minSpeechDuration v,
       mk (energyThreshold v) (silenceThreshold v)
          (minSpeechDuration v) (minSilenceDuration v)
          (speechStartTime v) start true).
Proof.
  unfold above_speech, below_silence, processAudio. cbv zeta.
  intros -> -> Hs. rewrite Hs. cbn [andb].
  destruct (Z.eqb_spec (silenceStartTime v) 0) as [E|E]; simpl.
  - destruct ((now >? 0) && (now - now >? minSilenceDuration v)); reflexivity.
  - rewrite Hs. cbn [andb].
    destruct ((silenceStartTime v >? 0) &&
              (now - silenceStartTime v >? minSilenceDuration v)); simpl.
    + reflexivity.
    + rewrite Hs. destruct v; simpl in *; subst; reflexivity.
Qed.

(** C3, as the code has it.  From a classifier that is not speaking, in a
    run of calls whose blocks are all above the speech threshold and whose
    first call is at time [t0], the call at time [t] returns [true]
    exactly when [t - t0] is strictly greater than the minimum speech
    duration.  So the call at [t0 + (minimum - cycle)] returns [false],
    the call one cycle later, at [t0 + minimum], still returns [false],
    and every later call of the run returns [true]. *)
Theorem speech_reported_after_minimum (v : t) (b0 : list sample) (t0 : Z)
    (rest : list (list sample * Z)) :
  isSpeaking v = false ->
  above_speech v b0 = true ->
  Forall (fun c => above_speech v (fst c) = true) rest ->
  fst (processAll ((b0, t0) :: rest) v) =
    map (fun c => snd c - t0 >? minSpeechDuration v) ((b0, t0) :: rest).
Proof.
  intros Hs Hb Hrest. cbn [processAll].
  rewrite (processAudio_loud b0 t0 v Hb). rewrite Hs. cbv zeta. cbn [negb].
  pose proof (processAll_loud rest
                (mk (energyThreshold v) (silenceThreshold v)
                    (minSpeechDuration v) (minSilenceDuration v) t0 0 true)
                eq_refl Hrest) as L.
  destruct (processAll rest _) as [rs v2]. simpl in L. simpl. rewrite L.
  reflexivity.
Qed.

Lemma speech_reported_after_minimum_witness :
  let v := new_default in
  let loud := [0.5]%float in
  let rest := [(loud, 1100); (loud, 1200); (loud, 1300); (loud, 1400)] in
  isSpeaking v = false /\
  above_speech v loud = true /\
  Forall (fun c => above_speech v (fst c) = true) rest /\
  fst (processAll ((loud, 1000) :: rest) v) =
    map (fun c => snd c - 1000 >? minSpeechDuration v) ((loud, 1000) :: rest).
Proof.
  intros v loud rest.
  assert (above_speech v loud = true) as Hl by (vm_compute; reflexivity).
  assert (Forall (fun c => above_speech v (fst c) = true) rest) as Hr
      by (repeat constructor; exact Hl).
  split; [reflexivity|]. split; [exact Hl|]. split; [exact Hr|].
  apply (speech_reported_after_minimum v loud 1000 rest eq_refl Hl Hr).
Defined.

(** C3 as stated fails.  The default classifier (minimum speech duration
    300 ms) is fed blocks of amplitude 0.5, well above the speech
    threshold, every 100 ms from [t0 = 1000].  The call at
    [t0 + (300 - 100)] returns [false], and so does the call one cycle
    later, at [t0 + 300], where the claim has [true]. *)
Lemma speech_at_exact_minimum_is_false :
  let v := new_default in
  let loud := [0.5]%float in
  let t0 := 1000 in
  let cycle := 100 in
  isSpeaking v = false /\
  above_speech v loud = true /\
  fst (processAll [(loud, t0);
                   (loud, t0 + cycle);
                   (loud, t0 + (minSpeechDuration v - cycle));
                   (loud, t0 + (minSpeechDuration v - cycle) + cycle)] v)
  = [false; false; false; false].
Proof. vm_compute. repeat split; reflexivity. Qed.

(** C7.  The classifier is speaking, its thresholds are ordered (silence
    below speech), and a block below the silence threshold arrives at a
    time when the recorded silence start (the one already stored, or this
    call's time if none is stored) is more than the minimum silence
    duration in the past.  Then this call returns [false] and leaves the
    classifier not speaking with both start markers cleared; and as long
    as no later block is above the speech threshold, every later call
    returns [false] and changes nothing. *)
Theorem silence_ends_speech (v : t) (quiet : list sample) (now : Z)
    (later : list (list sample * Z)) :
  (silenceThreshold v <? energyThreshold v)%float = true ->
  isSpeaking v = true ->
  below_silence v quiet = true ->
  let start := if silenceStartTime v =? 0 then now else silenceStartTime v in
  0 < start ->
  minSilenceDuration v < now - start ->
  Forall (fun c => above_speech v (fst c) = false) later ->
  let v1 := snd (processAudio quiet now v) in
  fst (processAudio quiet now v) = false /\
  isSpeaking v1 = false /\
  speechStartTime v1 = 0 /\
  silenceStartTime v1 = 0 /\
  processAll later v1 = (map (fun _ => false) later, v1).
Proof.
  intros Hhyst Hs Hq start H0 Hlong Hlater v1.
  assert (above_speech v quiet = false) as Hna
      by (apply (FloatOrder.ltb_chain _ _ _ Hq Hhyst)).
  pose proof (processAudio_quiet quiet now v Hna Hq Hs) as E.
  cbv zeta in E. fold start in E.
  destruct (Z.gtb_spec start 0); [|lia].
  destruct (Z.gtb_spec (now - start) (minSilenceDuration v)); [|lia].
  cbn [andb] in E. subst v1. rewrite E. cbn [fst snd].
  repeat split.
  apply processAll_idle; [reflexivity|].
  eapply Forall_impl; [exact Hlater|]. intros c Hc. exact Hc.
Qed.

Lemma silence_ends_speech_witness :
  let v := mk 0.01%float 0.005%float 300 500 1000 2000 true in
  let quiet := [0; 0]%float in
  let now := 2501 in
  let later := [(quiet, 2600); ([0.007]%float, 2700); (quiet, 9000)] in
  (silenceThreshold v <? energyThreshold v)%float = true /\
  isSpeaking v = true /\
  below_silence v quiet = true /\
  0 < silenceStartTime v /\
  minSilenceDuration v < now - silenceStartTime v /\
  Forall (fun c => above_speech v (fst c) = false) later /\
  let v1 := snd (processAudio quiet now v) in
  fst (processAudio quiet now v) = false /\
  isSpeaking v1 = false /\
  speechStartTime v1 = 0 /\
  silenceStartTime v1 = 0 /\
  processAll later v1 = (map (fun _ => false) later, v1).
Proof.
  intros v quiet now later.
  assert (Forall (fun c => above_speech v (fst c) = false) later) as Hl
      by (repeat constructor; vm_compute; reflexivity).
  split; [vm_compute; reflexivity|]. split; [reflexivity|].
  split; [vm_compute; reflexivity|]. split; [simpl; lia|].
  split; [simpl; lia|]. split; [exact Hl|].
  apply (silence_ends_speech v quiet now later).
  - vm_compute; reflexivity.
  - reflexivity.
  - vm_compute; reflexivity.
  - simpl; lia.
  - simpl; lia.
  - exact Hl.
Defined.

End VoiceActivityDetectorCorrect.

(** ** AudioDeviceManager: the events of one diff *)

Module AudioDeviceManagerCorrect.

Import AudioDeviceManager.

Lemma two_entries {A} (l : list A) (x y : A) :
  Permutation l [x; y] -> l = [x; y] \/ l = [y; x].
Proof.
  intros P. apply Permutation_sym in P.
  apply Permutation_length_2_inv in P. exact P.
Qed.

(** Every event carries the type of the loop that emitted it. *)
Lemma event_origin oldDevices newDevices now e :
  In e (detectDeviceChanges oldDevices newDevices now) ->
  type e = defaultChanged ->
  id_differs (find isDefault (values oldDevices))
             (find isDefault (values newDevices)) = true /\
  find isDefault (values newDevices) = Some (device e).
Proof.
  unfold detectDeviceChanges. cbv zeta. intros Hin Ht.
  repeat (apply in_app_or in Hin; destruct Hin as [Hin|Hin]).
  - apply in_flat_map in Hin. destruct Hin as (x & _ & Hx).
    destruct (negb _); [|contradiction].
    destruct Hx as [<-|[]]. discriminate.
  - apply in_flat_map in Hin. destruct Hin as (x & _ & Hx).
    destruct (negb _); [|contradiction].
    destruct Hx as [<-|[]]. discriminate.
  - destruct (id_differs _ _); [|contradiction].
    destruct (find isDefault (values newDevices)); [|contradiction].
    destruct Hin as [<-|[]]. split; reflexivity.
  - apply in_flat_map in Hin. destruct Hin as (x & _ & Hx).
    destruct (get _ _); [|contradiction].
    destruct (negb _); [|contradiction].
    destruct Hx as [<-|[]]. discriminate.
Qed.

(** C4.  The cache held [A] (marked default) and [B]; the new cache holds
    the same [B] and [C] (marked default); the three ids differ and [B] is
    not marked default.  Whatever the order of the entries in either
    cache, the diff emits three events and no other: added(C),
    removed(A), default-changed(C), in this order of emission. *)
Theorem diff_default_replaced (A B C : AudioDevice)
    (oldDevices newDevices : DeviceMap) (now : Z) :
  id A <> id B -> id B <> id C -> id A <> id C ->
  isDefault A = true -> isDefault B = false -> isDefault C = true ->
  Permutation oldDevices [(id A, A); (id B, B)] ->
  Permutation newDevices [(id B, B); (id C, C)] ->
  detectDeviceChanges oldDevices newDevices now =
    [mkEvent added C now; mkEvent removed A now; mkEvent defaultChanged C now]
  /\ Permutation (detectDeviceChanges oldDevices newDevices now)
       [mkEvent removed A now; mkEvent added C now; mkEvent defaultChanged C now].
Proof.
  intros AB BC AC dA dB dC Pold Pnew.
  assert (detectDeviceChanges oldDevices newDevices now =
          [mkEvent added C now; mkEvent removed A now;
           mkEvent defaultChanged C now]) as E.
  { assert (String.eqb (id A) (id B) = false) by (apply String.eqb_neq; auto).
    assert (String.eqb (id B) (id A) = false) by (apply String.eqb_neq; auto).
    assert (String.eqb (id B) (id C) = false) by (apply String.eqb_neq; auto).
    assert (String.eqb (id C) (id B) = false) by (apply String.eqb_neq; auto).
    assert (String.eqb (id A) (id C) = false) by (apply String.eqb_neq; auto).
    assert (String.eqb (id C) (id A) = false) by (apply String.eqb_neq; auto).
    destruct (two_entries _ _ _ Pold) as [-> | ->],
             (two_entries _ _ _ Pnew) as [-> | ->];
      unfold detectDeviceChanges, has, get, values, id_differs; simpl;
      repeat match goal with
             | H : _ = _ |- _ => rewrite H
             end;
      rewrite ?String.eqb_refl; simpl;
      repeat match goal with
             | H : _ = _ |- _ => rewrite H
             end;
      rewrite ?Bool.eqb_reflx; simpl; reflexivity. }
  split; [exact E|]. rewrite E. apply perm_swap.
Qed.

Lemma diff_default_replaced_witness :
  let A := mkDevice "usb-a" "USB Microphone" true true 1 48000 in
  let B := mkDevice "built-in" "Built-in Microphone" false true 2 44100 in
  let C := mkDevice "headset" "Headset" true true 1 16000 in
  let oldDevices := refreshed [B; A] in
  let newDevices := refreshed [B; C] in
  detectDeviceChanges oldDevices newDevices 7 =
    [mkEvent added C 7; mkEvent removed A 7; mkEvent defaultChanged C 7]
  /\ Permutation (detectDeviceChanges oldDevices newDevices 7)
       [mkEvent removed A 7; mkEvent added C 7; mkEvent defaultChanged C 7].
Proof.
  intros A B C oldDevices newDevices.
  apply (diff_default_replaced A B C oldDevices newDevices 7);
    try discriminate; try reflexivity.
  - apply perm_swap.
Defined.

(** C10.  A default-changed event of a diff always carries the device the
    new cache marks default; so when the new cache marks none, the diff
    emits no default-changed event, whatever the old cache marked. *)
Theorem default_changed_needs_new_default
    (oldDevices newDevices : DeviceMap) (now : Z) :
  (forall e, In e (detectDeviceChanges oldDevices newDevices now) ->
             type e = defaultChanged ->
             find isDefault (values newDevices) = Some (device e)) /\
  (find isDefault (values newDevices) = None ->
   forall e, In e (detectDeviceChanges oldDevices newDevices now) ->
             type e <> defaultChanged).
Proof.
  split.
  - intros e Hin Ht. apply (event_origin _ _ _ _ Hin Ht).
  - intros Hnone e Hin Ht.
    destruct (event_origin _ _ _ _ Hin Ht) as [_ E]. congruence.
Qed.

Lemma default_changed_needs_new_default_witness :
  let A := mkDevice "usb-a" "USB Microphone" true true 1 48000 in
  let B := mkDevice "built-in" "Built-in Microphone" false true 2 44100 in
  let oldDevices := refreshed [A; B] in
  let newDevices := refreshed [B] in
  find isDefault (values oldDevices) = Some A /\
  find isDefault (values newDevices) = None /\
  detectDeviceChanges oldDevices newDevices 7 = [mkEvent removed A 7] /\
  forall e, In e (detectDeviceChanges oldDevices newDevices 7) ->
            type e <> defaultChanged.
Proof.
  intros A B oldDevices newDevices.
  split; [reflexivity|]. split; [reflexivity|]. split; [reflexivity|].
  apply (proj2 (default_changed_needs_new_default oldDevices newDevices 7)).
  reflexivity.
Defined.

End AudioDeviceManagerCorrect.

(** ** AudioCaptureManager: failed start and overflowing delivery *)

Module AudioCaptureManagerFacts.

Import AudioCaptureManager.

(** The three exits of [startCapture] past its guards. *)
Lemma startCapture_reaches_driver config m native :
  isCapturing m = false ->
  nativeModule m = Some native ->
  0 <= sampleRate config * channels config * 10 ->
  exists rb,
    RingBuffer.new (sampleRate config * channels config * 10) = Some rb /\
    RingBuffer.size rb = sampleRate config * channels config * 10 /\
    startCapture config m =
      if native_startCapture native config then
        (Done,
         mk (nativeModule m) (Some rb) (vad m) true (Some config) [] true,
         [captureStarted config])
      else
        (Throw (CaptureError "Failed to start native audio capture"),
         mk (nativeModule m) (Some rb) (vad m) (isCapturing m)
            (currentConfig m) (audioChunks m) (processingInterval m),
         []).
Proof.
  intros Hc Hn Hsz.
  destruct (Float32ArrayFacts.make_some _ Hsz) as (a & Ea & _).
  assert (RingBuffer.new (sampleRate config * channels config * 10) =
          Some (RingBuffer.mk a 0 0 (sampleRate config * channels config * 10)))
    as Enew by (unfold RingBuffer.new; rewrite Ea; reflexivity).
  eexists. split; [exact Enew|]. split; [reflexivity|].
  unfold startCapture. rewrite Hc, Hn. cbv zeta. rewrite Enew.
  destruct (native_startCapture native config); reflexivity.
Qed.

Lemma onAudioData_idle floatData m :
  isCapturing m = false -> onAudioData floatData m = (m, []).
Proof. intros Hc. unfold onAudioData. rewrite Hc. reflexivity. Qed.

Lemma onAudioData_overflow floatData m rb config :
  isCapturing m = true ->
  ringBuffer m = Some rb ->
  currentConfig m = Some config ->
  RingBuffer.getAvailableSpace rb < Float32Array.len floatData ->
  onAudioData floatData m = (m, [bufferOverflow]).
Proof.
  intros Hc Hrb Hcfg Hover.
  unfold onAudioData. rewrite Hc, Hrb, Hcfg. cbn [negb].
  rewrite (RingBufferFacts.write_overflow floatData rb Hover).
  destruct m; simpl in *; subst; reflexivity.
Qed.

Lemma onAudioData_fits floatData m rb config :
  isCapturing m = true ->
  ringBuffer m = Some rb ->
  currentConfig m = Some config ->
  RingBuffer.wf rb ->
  Float32Array.len floatData <= RingBuffer.getAvailableSpace rb ->
  exists rb',
    onAudioData floatData m =
      (mk (nativeModule m) (Some rb') (vad m) true (currentConfig m)
          (audioChunks m) (processingInterval m), []) /\
    RingBuffer.contents rb' = RingBuffer.contents rb ++ floatData.
Proof.
  intros Hc Hrb Hcfg Hwf Hfit.
  destruct (RingBufferFacts.write_spec floatData rb Hwf Hfit)
    as (rb' & Ew & _ & Econt & _).
  exists rb'. split; [|exact Econt].
  unfold onAudioData. rewrite Hc, Hrb, Hcfg. cbn [negb]. rewrite Ew.
  reflexivity.
Qed.

End AudioCaptureManagerFacts.

Module AudioCaptureManagerCorrect.

Import AudioCaptureManager AudioCaptureManagerFacts.

(** C5, as the code has it.  When [startCapture] reaches the driver (no
    capture in progress, driver loaded, buffer allocated) and the driver
    refuses, the call throws the capture error, emits nothing, and leaves
    the capture flag, the configuration, the chunk history, the classifier
    and the drain timer as they were.  The ring buffer field is not
    restored: it holds the empty buffer of ten seconds of samples
    allocated just before the driver was asked.  Deliveries are still
    ignored afterwards, as before the attempt. *)
Theorem failed_start_keeps_all_but_buffer (config : AudioCaptureConfig)
    (m : t) (native : NativeAudioModule) :
  isCapturing m = false ->
  nativeModule m = Some native ->
  0 <= sampleRate config * channels config * 10 ->
  native_startCapture native config = false ->
  exists rb,
    RingBuffer.new (sampleRate config * channels config * 10) = Some rb /\
    let m' := mk (nativeModule m) (Some rb) (vad m) (isCapturing m)
                 (currentConfig m) (audioChunks m) (processingInterval m) in
    startCapture config m =
      (Throw (CaptureError "Failed to start native audio capture"), m', []) /\
    forall floatData, onAudioData floatData m' = (m', []).
Proof.
  intros Hc Hn Hsz Hfail.
  destruct (startCapture_reaches_driver config m native Hc Hn Hsz)
    as (rb & Enew & _ & Estart).
  rewrite Hfail in Estart.
  exists rb. split; [exact Enew|]. cbv zeta. split; [exact Estart|].
  intros floatData. apply onAudioData_idle. exact Hc.
Qed.

Lemma failed_start_keeps_all_but_buffer_witness :
  let config := mkConfig "default" 8000 1 100 in
  isCapturing initialized = false /\
  exists rb,
    RingBuffer.new (sampleRate config * channels config * 10) = Some rb /\
    let m' := mk (nativeModule initialized) (Some rb) (vad initialized)
                 (isCapturing initialized) (currentConfig initialized)
                 (audioChunks initialized) (processingInterval initialized) in
    startCapture config initialized =
      (Throw (CaptureError "Failed to start native audio capture"), m', []) /\
    forall floatData, onAudioData floatData m' = (m', []).
Proof.
  intros config. split; [reflexivity|].
  apply (failed_start_keeps_all_but_buffer config initialized refusing_driver).
  - reflexivity.
  - reflexivity.
  - simpl. lia.
  - reflexivity.
Defined.

(** C5 as stated fails.  Before the attempt the manager holds no ring
    buffer; the driver refuses; after the failed attempt the manager holds
    a ring buffer of 80000 samples. *)
Lemma failed_start_leaves_a_buffer :
  let config := mkConfig "default" 8000 1 100 in
  ringBuffer initialized = None /\
  exists m' rb,
    startCapture config initialized =
      (Throw (CaptureError "Failed to start native audio capture"), m', []) /\
    ringBuffer m' = Some rb /\
    RingBuffer.size rb = 80000 /\
    ringBuffer m' <> ringBuffer initialized.
Proof.
  intros config. split; [reflexivity|].
  destruct (startCapture_reaches_driver config initialized refusing_driver)
    as (rb & _ & Esize & Estart); try reflexivity; [simpl; lia|].
  simpl in Estart.
  eexists. exists rb. split; [exact Estart|].
  split; [reflexivity|]. split; [exact Esize|]. simpl. discriminate.
Qed.

(** C6, as the code has it.  While capturing, a delivery longer than the
    space left fires exactly one [bufferOverflow] event and changes
    nothing: the manager, its capture flag, the buffer's cells and both
    cursors are as before, so the samples stored earlier are intact and
    none of the delivered samples is kept.  Capture goes on: a later
    delivery that fits is appended whole and fires no event. *)
Theorem overflow_drops_whole_delivery (floatData : list sample) (m : t)
    (rb : RingBuffer.t) (config : AudioCaptureConfig) :
  isCapturing m = true ->
  ringBuffer m = Some rb ->
  currentConfig m = Some config ->
  RingBuffer.getAvailableSpace rb < Float32Array.len floatData ->
  onAudioData floatData m = (m, [bufferOverflow]) /\
  forall next : list sample,
    RingBuffer.wf rb ->
    Float32Array.len next <= RingBuffer.getAvailableSpace rb ->
    exists rb',
      onAudioData next (fst (onAudioData floatData m)) =
        (mk (nativeModule m) (Some rb') (vad m) true (currentConfig m)
            (audioChunks m) (processingInterval m), []) /\
      RingBuffer.contents rb' = RingBuffer.contents rb ++ next.
Proof.
  intros Hc Hrb Hcfg Hover.
  pose proof (onAudioData_overflow floatData m rb config Hc Hrb Hcfg Hover) as E.
  split; [exact E|]. intros next Hwf Hfit. rewrite E. cbn [fst].
  apply (onAudioData_fits next m rb config Hc Hrb Hcfg Hwf Hfit).
Qed.

Lemma overflow_drops_whole_delivery_witness :
  let config := mkConfig "default" 1 1 100 in
  let rb := RingBuffer.mk [1; 2; 0; 0; 0; 0; 0; 0; 0; 0]%float 2 0 10 in
  let m := mk (Some mock_driver) (Some rb) VoiceActivityDetector.new_default
              true (Some config) [] true in
  let floatData := replicate 8 0.5%float in
  onAudioData floatData m = (m, [bufferOverflow]) /\
  forall next : list sample,
    RingBuffer.wf rb ->
    Float32Array.len next <= RingBuffer.getAvailableSpace rb ->
    exists rb',
      onAudioData next (fst (onAudioData floatData m)) =
        (mk (nativeModule m) (Some rb') (vad m) true (currentConfig m)
            (audioChunks m) (processingInterval m), []) /\
      RingBuffer.contents rb' = RingBuffer.contents rb ++ next.
Proof.
  intros config rb m floatData.
  apply (overflow_drops_whole_delivery floatData m rb config).
  - reflexivity.
  - reflexivity.
  - reflexivity.
  - vm_compute. reflexivity.
Defined.

(** C6 as stated fails.  Capture is started at 8000 Hz, mono, on the mock
    driver: the buffer has 80000 cells, all 79999 usable ones free.  One
    delivery of 80001 samples fires one [bufferOverflow] event, and
    afterwards the buffer holds no sample at all, where the claim has it
    hold the latest 79999 of the delivery. *)
Lemma overflow_keeps_nothing_of_delivery :
  let config := mkConfig "default" 8000 1 100 in
  let floatData := replicate (Z.to_nat 80001) 0.5%float in
  exists m rb,
    startCapture config ready = (Done, m, [captureStarted config]) /\
    ringBuffer m = Some rb /\
    RingBuffer.getAvailableSpace rb = 79999 /\
    Float32Array.len floatData = 80001 /\
    exists m' rb',
      onAudioData floatData m = (m', [bufferOverflow]) /\
      isCapturing m' = true /\
      ringBuffer m' = Some rb' /\
      RingBuffer.getAvailableData rb' = 0 /\
      RingBuffer.contents rb' = [].
Proof.
  intros config floatData.
  destruct (startCapture_reaches_driver config ready mock_driver)
    as (rb & Enew & Esize & Estart); try reflexivity; [simpl; lia|].
  assert (sampleRate config * channels config * 10 = 80000) as E10
      by reflexivity.
  rewrite E10 in Enew, Esize. simpl in Estart.
  destruct (RingBufferFacts.new_wf 80000 ltac:(lia))
    as (rb0 & Enew0 & Hwf & _ & Havail).
  assert (rb0 = rb) as -> by congruence.
  assert (RingBuffer.getAvailableSpace rb = 79999) as Hspace
      by (unfold RingBuffer.getAvailableSpace; rewrite Havail, Esize; lia).
  assert (Float32Array.len floatData = 80001) as Hlen
      by (unfold Float32Array.len, floatData; rewrite length_replicate; lia).
  eexists. exists rb. split; [exact Estart|]. split; [reflexivity|].
  split; [exact Hspace|]. split; [exact Hlen|].
  eexists. exists rb. split.
  - apply (onAudioData_overflow floatData _ rb config); try reflexivity. lia.
  - split; [reflexivity|]. split; [reflexivity|]. split; [exact Havail|].
    unfold RingBuffer.contents. rewrite Havail. reflexivity.
Qed.

End AudioCaptureManagerCorrect.

(** ** SpeechServiceManager: the segment window *)

Module SpeechServiceManagerCorrect.

Import AudioCaptureManager SpeechServiceManager.

Lemma fold_duration (l : list AudioChunk) : forall a,
  fold_left (fun sum c => sum + duration c) l a =
    a + fold_left (fun sum c => sum + duration c) l 0.
Proof.
  induction l as [|c l IH]; intros a; simpl; [lia|].
  rewrite (IH (a + duration c)), (IH (0 + duration c)). lia.
Qed.

Lemma totalDuration_cons c l :
  totalDuration (c :: l) = duration c + totalDuration l.
Proof. unfold totalDuration. simpl. apply fold_duration. Qed.

(** Entered with the excess over the cap, the loop drops the shortest
    prefix that brings the total down to the cap. *)
Lemma evict_spec (l : list AudioChunk) :
  exists k : nat,
    evict (totalDuration l - maxBufferDuration) l = drop k l /\
    totalDuration (drop k l) <= maxBufferDuration /\
    forall j : nat, (j < k)%nat -> maxBufferDuration < totalDuration (drop j l).
Proof.
  induction l as [|c l (k & E & Hle & Hgt)].
  - exists O. split; [reflexivity|]. split; [|intros j Hj; lia].
    unfold totalDuration, maxBufferDuration. simpl. lia.
  - cbn [evict]. destruct (Z.gtb_spec (totalDuration (c :: l) - maxBufferDuration) 0)
      as [Hover|Hfit].
    + exists (S k). rewrite totalDuration_cons.
      replace (duration c + totalDuration l - maxBufferDuration - duration c)
        with (totalDuration l - maxBufferDuration) by lia.
      cbn [drop]. repeat split; [exact E|exact Hle|].
      intros [|j] Hj; cbn [drop]; [lia|]. apply Hgt. lia.
    + exists O. cbn [drop]. repeat split; [lia|]. intros j Hj. lia.
Qed.

(** C8.  A push appends the segment and then drops segments from the
    front only: what is left is the pushed window without its [k] oldest
    segments, its total duration is at most the cap, and every one of the
    [k] evictions happened while the total still exceeded the cap.  So a
    push whose total stays within the cap drops nothing. *)
Theorem push_evicts_oldest_while_over_cap (chunk : AudioChunk)
    (audioBuffer : list AudioChunk) :
  exists k : nat,
    addAudioChunk chunk audioBuffer = drop k (audioBuffer ++ [chunk]) /\
    totalDuration (addAudioChunk chunk audioBuffer) <= maxBufferDuration /\
    forall j : nat,
      (j < k)%nat ->
      maxBufferDuration < totalDuration (drop j (audioBuffer ++ [chunk])).
Proof.
  unfold addAudioChunk. cbv zeta.
  destruct (Z.gtb_spec (totalDuration (audioBuffer ++ [chunk])) maxBufferDuration)
    as [Hover|Hfit].
  - destruct (evict_spec (audioBuffer ++ [chunk])) as (k & E & Hle & Hgt).
    exists k. rewrite E. auto.
  - exists O. cbn [drop]. repeat split; [exact Hfit|]. intros j Hj. lia.
Qed.

End SpeechServiceManagerCorrect.

(** * Further properties *)

(** ** RingBuffer: clearing, the reserved cell, and the queue it implements *)

Module RingBufferMore.

Import Float32Array Float32ArrayFacts RingBuffer RingBufferFacts RingBufferTrace.

Lemma len_contents rb : wf rb -> len (contents rb) = getAvailableData rb.
Proof.
  intros H. pose proof (avail_range rb H). unfold len.
  rewrite contents_length. lia.
Qed.

(** X1.  [clear()] on a well-formed buffer discards whatever was pending:
    nothing is available, every cell but the reserved one is free, and a
    read returns no sample and leaves the cleared buffer as it is. *)
Theorem clear_discards_pending (rb : t) :
  wf rb ->
  wf (clear rb) /\
  getAvailableData (clear rb) = 0 /\
  getAvailableSpace (clear rb) = size rb - 1 /\
  contents (clear rb) = [] /\
  forall count : nat, read (Z.of_nat count) (clear rb) = Some ([], clear rb).
Proof.
  intros (Hn & Hl & Hw & Hr).
  assert (getAvailableData (clear rb) = 0) as Ha.
  { unfold getAvailableData, clear; simpl.
    rewrite Cursor.rem_wrap by lia.
    destruct (Z.ltb_spec (0 - 0 + size rb) (size rb)); lia. }
  split; [unfold wf, clear; simpl; lia|].
  split; [exact Ha|].
  split; [unfold getAvailableSpace; rewrite Ha; simpl; lia|].
  split; [unfold contents; rewrite Ha; reflexivity|].
  intros count. unfold read. rewrite Ha.
  destruct (Z.ltb_spec (Z.min (Z.of_nat count) 0) 0); [lia|].
  replace (Z.to_nat (Z.min (Z.of_nat count) 0)) with O by lia. reflexivity.
Qed.

Lemma clear_discards_pending_witness :
  let rb := mk [1; 2; 3; 0]%float 3 1 4 in
  wf (clear rb) /\
  getAvailableData (clear rb) = 0 /\
  getAvailableSpace (clear rb) = size rb - 1 /\
  contents (clear rb) = [] /\
  forall count : nat, read (Z.of_nat count) (clear rb) = Some ([], clear rb).
Proof.
  intros rb. apply (clear_discards_pending rb).
  unfold wf, len; simpl. lia.
Defined.

(** X2.  One cell is always kept free.  A fresh buffer of [N] cells takes
    a block of [N - 1] samples and is then full: no space is left and every
    further non-empty block is refused.  A block of [N] samples or more is
    refused by every well-formed buffer of [N] cells, even an empty one. *)
Theorem one_cell_reserved (N : Z) (data : list sample) :
  0 < N ->
  len data = N - 1 ->
  (exists rb0 rb1,
      new N = Some rb0 /\
      write data rb0 = (true, rb1) /\
      getAvailableData rb1 = N - 1 /\
      getAvailableSpace rb1 = 0 /\
      forall more : list sample, more <> [] -> write more rb1 = (false, rb1)) /\
  (forall (rb : t) (block : list sample),
      wf rb -> size rb = N -> N <= len block -> write block rb = (false, rb)).
Proof.
  intros HN Hlen. split.
  - destruct (new_wf N HN) as (rb0 & E & H0 & Hs0 & Ha0).
    assert (getAvailableSpace rb0 = N - 1) as Hsp
        by (unfold getAvailableSpace; lia).
    destruct (write_spec data rb0 H0 ltac:(lia))
      as (rb1 & Ew & W1 & _ & W3 & _ & W5 & _).
    exists rb0, rb1. split; [exact E|]. split; [exact Ew|].
    split; [lia|].
    assert (getAvailableSpace rb1 = 0) as Hfull
        by (unfold getAvailableSpace; lia).
    split; [exact Hfull|].
    intros more Hne. apply write_overflow. rewrite Hfull.
    destruct more; [congruence|]. unfold len. simpl length. lia.
  - intros rb block H Hsz Hbig. apply write_overflow.
    pose proof (space_range rb H). lia.
Qed.

Lemma one_cell_reserved_witness :
  0 < 4 /\
  (exists rb0 rb1,
      new 4 = Some rb0 /\
      write [1; 2; 3]%float rb0 = (true, rb1) /\
      getAvailableData rb1 = 4 - 1 /\
      getAvailableSpace rb1 = 0 /\
      forall more : list sample, more <> [] -> write more rb1 = (false, rb1)) /\
  (forall (rb : t) (block : list sample),
      wf rb -> size rb = 4 -> 4 <= len block -> write block rb = (false, rb)).
Proof.
  split; [lia|].
  apply (one_cell_reserved 4 [1; 2; 3]%float); [lia|reflexivity].
Defined.

(** From any well-formed buffer, calls are answered as by the queue that
    starts with the pending samples. *)
Lemma trace_queue ops : forall rb,
  wf rb ->
  fst (trace ops rb) = fst (queue_trace (size rb - 1) ops (contents rb)) /\
  contents (snd (trace ops rb)) =
    snd (queue_trace (size rb - 1) ops (contents rb)).
Proof.
  induction ops as [|o ops IH]; intros rb H; [split; reflexivity|].
  pose proof (len_contents rb H) as Hlc.
  cbn [trace queue_trace].
  destruct o as [data|count]; cbn [exec queue_exec].
  - rewrite Hlc.
    destruct (Z.gtb_spec (len data) (size rb - 1 - getAvailableData rb))
      as [Hover|Hfit].
    + rewrite (write_overflow data rb) by (unfold getAvailableSpace; lia).
      destruct (IH rb H) as [I1 I2].
      destruct (trace ops rb), (queue_trace _ ops (contents rb)).
      simpl in *. split; congruence.
    + destruct (write_spec data rb H) as (rb' & E & W1 & W2 & _ & _ & W5 & _);
        [unfold getAvailableSpace; lia|].
      rewrite E. destruct (IH rb' W1) as [I1 I2]. rewrite W5, W2 in *.
      destruct (trace ops rb'), (queue_trace _ ops (contents rb ++ data)).
      simpl in *. split; congruence.
  - destruct (read_spec count rb H) as (xs & rb' & E & R1 & R2 & _ & R4 & _ & R6).
    rewrite E. destruct (IH rb' R4) as [I1 I2]. rewrite R6, R2 in *.
    rewrite <- R1.
    destruct (trace ops rb'), (queue_trace _ ops (drop count (contents rb))).
    simpl in *. split; congruence.
Qed.

(** X3.  A caller cannot tell the ring buffer from a bounded queue.  On a
    fresh buffer of [N] cells every sequence of [write] and [read] calls
    gets the answers a first-in first-out queue of at most [N - 1] samples
    gives (a block is taken whole or refused, a read hands out the oldest
    samples in order), and the samples pending at the end are the queue's. *)
Theorem behaves_as_bounded_queue (N : Z) (ops : list op) :
  0 < N ->
  exists rb0,
    new N = Some rb0 /\
    fst (trace ops rb0) = fst (queue_trace (N - 1) ops []) /\
    contents (snd (trace ops rb0)) = snd (queue_trace (N - 1) ops []).
Proof.
  intros HN. destruct (new_wf N HN) as (rb0 & E & H0 & Hs0 & Ha0).
  exists rb0. split; [exact E|].
  pose proof (trace_queue ops rb0 H0) as T.
  assert (contents rb0 = []) as Hc
      by (unfold contents; rewrite Ha0; reflexivity).
  rewrite Hs0, Hc in T. exact T.
Qed.

Lemma behaves_as_bounded_queue_witness :
  0 < 4 /\
  let ops := [Write [1; 2]%float; Write [3; 4]%float; Read 1;
              Write [5; 6]%float; Read 7] in
  exists rb0,
    new 4 = Some rb0 /\
    fst (trace ops rb0) = fst (queue_trace (4 - 1) ops []) /\
    contents (snd (trace ops rb0)) = snd (queue_trace (4 - 1) ops []).
Proof.
  split; [lia|]. cbv zeta.
  apply (behaves_as_bounded_queue 4). lia.
Defined.

End RingBufferMore.

(** ** VoiceActivityDetector: empty blocks and short pauses *)

Module VoiceActivityDetectorMore.

Import VoiceActivityDetector VoiceActivityDetectorCorrect.

Lemma energy_of_nothing : calculateEnergy [] = nan.
Proof. vm_compute. reflexivity. Qed.

Lemma nan_not_above (x : float) : (x <? nan)%float = false.
Proof.
  rewrite ltb_spec. change (Prim2SF nan) with S754_nan.
  unfold SFltb, SFcompare. destruct (Prim2SF x); reflexivity.
Qed.

Lemma nan_not_below (x : float) : (nan <? x)%float = false.
Proof.
  rewrite ltb_spec. change (Prim2SF nan) with S754_nan. reflexivity.
Qed.

(** X4.  An empty block has no energy to compare (0/0 is NaN, which is
    neither above the speech threshold nor below the silence threshold), so
    whatever the settings the classifier keeps its state, and answers from
    the state it already had. *)
Theorem empty_block_keeps_state (v : t) (now : Z) :
  processAudio [] now v =
    (isSpeaking v && (now - speechStartTime v >? minSpeechDuration v), v).
Proof.
  unfold processAudio. cbv zeta. rewrite energy_of_nothing.
  rewrite nan_not_above, nan_not_below. reflexivity.
Qed.

(** With a silence start on record and the minimum silence not yet over,
    blocks below the silence threshold change nothing. *)
Lemma processAll_waiting calls : forall v,
  (silenceThreshold v <? energyThreshold v)%float = true ->
  isSpeaking v = true ->
  0 < silenceStartTime v ->
  Forall (fun c => below_silence v (fst c) = true /\
                   snd c - silenceStartTime v <= minSilenceDuration v) calls ->
  processAll calls v =
    (map (fun c => snd c - speechStartTime v >? minSpeechDuration v) calls, v).
Proof.
  induction calls as [|[b ts] calls IH]; intros v Hh Hs Hrec Hall; [reflexivity|].
  inversion Hall as [|? ? [Hq Hshort] Hrest]; subst. simpl in Hq, Hshort.
  assert (above_speech v b = false) as Hna
      by (apply (FloatOrder.ltb_chain _ _ _ Hq Hh)).
  cbn [processAll]. rewrite (processAudio_quiet b ts v Hna Hq Hs). cbv zeta.
  destruct (Z.eqb_spec (silenceStartTime v) 0) as [E|_]; [lia|].
  destruct (Z.gtb_spec (ts - silenceStartTime v) (minSilenceDuration v)); [lia|].
  rewrite andb_false_r.
  assert (mk (energyThreshold v) (silenceThreshold v) (minSpeechDuration v)
             (minSilenceDuration v) (speechStartTime v) (silenceStartTime v)
             true = v) as -> by (destruct v; simpl in *; subst; reflexivity).
  rewrite (IH v Hh Hs Hrec Hrest). reflexivity.
Qed.

(** X5.  A pause no longer than the minimum silence does not end the
    speech.  The classifier is speaking with no silence on record and
    ordered thresholds; blocks below the silence threshold arrive, the
    first at [t1 > 0] and the others no later than [t1] plus the minimum
    silence duration.  Through the pause the classifier stays speaking,
    keeps the speech start, records [t1] as silence start and answers each
    call by the time since the speech start alone; the next block above the
    speech threshold erases the silence start and the speech goes on from
    its original start. *)
Theorem short_pause_keeps_speech (v : t) (b1 : list sample) (t1 : Z)
    (rest : list (list sample * Z)) (loud : list sample) (t : Z) :
  (silenceThreshold v <? energyThreshold v)%float = true ->
  isSpeaking v = true ->
  silenceStartTime v = 0 ->
  0 <= minSilenceDuration v ->
  0 < t1 ->
  below_silence v b1 = true ->
  Forall (fun c => below_silence v (fst c) = true /\
                   snd c - t1 <= minSilenceDuration v) rest ->
  above_speech v loud = true ->
  let paused := mk (energyThreshold v) (silenceThreshold v)
                   (minSpeechDuration v) (minSilenceDuration v)
                   (speechStartTime v) t1 true in
  processAll ((b1, t1) :: rest) v =
    (map (fun c => snd c - speechStartTime v >? minSpeechDuration v)
         ((b1, t1) :: rest),
     paused) /\
  processAudio loud t paused =
    (t - speechStartTime v >? minSpeechDuration v,
     mk (energyThreshold v) (silenceThreshold v)
        (minSpeechDuration v) (minSilenceDuration v)
        (speechStartTime v) 0 true).
Proof.
  intros Hh Hs Hnone Hmin Ht1 Hq1 Hrest Hloud paused.
  assert (above_speech v b1 = false) as Hna
      by (apply (FloatOrder.ltb_chain _ _ _ Hq1 Hh)).
  split.
  - cbn [processAll]. rewrite (processAudio_quiet b1 t1 v Hna Hq1 Hs). cbv zeta.
    rewrite Hnone. cbn [Z.eqb].
    destruct (Z.gtb_spec (t1 - t1) (minSilenceDuration v)); [lia|].
    rewrite andb_false_r. cbv iota.
    pose proof (processAll_waiting rest paused Hh eq_refl Ht1 Hrest) as W.
    subst paused. cbn [speechStartTime minSpeechDuration] in W.
    rewrite W. reflexivity.
  - rewrite (processAudio_loud loud t paused Hloud). reflexivity.
Qed.

Lemma short_pause_keeps_speech_witness :
  let v := mk 0.01%float 0.005%float 300 500 1000 0 true in
  let quiet := [0; 0]%float in
  let rest := [(quiet, 2100); (quiet, 2500)] in
  let loud := [0.5; 0.5]%float in
  let paused := mk 0.01%float 0.005%float 300 500 1000 2000 true in
  processAll ((quiet, 2000) :: rest) v =
    (map (fun c => snd c - speechStartTime v >? minSpeechDuration v)
         ((quiet, 2000) :: rest),
     paused) /\
  processAudio loud 2600 paused =
    (2600 - speechStartTime v >? minSpeechDuration v,
     mk 0.01%float 0.005%float 300 500 1000 0 true).
Proof.
  intros v quiet rest loud paused.
  apply (short_pause_keeps_speech v quiet 2000 rest loud 2600).
  - vm_compute; reflexivity.
  - reflexivity.
  - reflexivity.
  - simpl; lia.
  - lia.
  - vm_compute; reflexivity.
  - repeat constructor; try (vm_compute; reflexivity); simpl; lia.
  - vm_compute; reflexivity.
Defined.

(** A classifier that is not speaking never answers [true] on its next
    call, however loud the block, as the speech would start only now. *)
Lemma first_answer_false audioData now v :
  isSpeaking v = false ->
  0 <= minSpeechDuration v ->
  fst (processAudio audioData now v) = false.
Proof.
  intros Hs Hmin.
  destruct (above_speech v audioData) eqn:Ha.
  - rewrite (processAudio_loud audioData now v Ha). rewrite Hs. simpl.
    destruct (Z.gtb_spec (now - now) (minSpeechDuration v)); [lia|reflexivity].
  - rewrite (processAudio_idle audioData now v Ha Hs). reflexivity.
Qed.

End VoiceActivityDetectorMore.

(** ** Array.prototype.slice *)

Module JsArrayFacts.

Import JsArray.

(** [a.slice(-m)] with [0 < m < a.length]: the last [m] elements. *)
Lemma slice_from_last {A} (m : Z) (a : list A) :
  0 < m -> m < Z.of_nat (length a) ->
  slice_from (- m) a = drop (length a - Z.to_nat m) a /\
  Z.of_nat (length (slice_from (- m) a)) = m.
Proof.
  intros H0 Hm. unfold slice_from. cbv zeta.
  destruct (Z.ltb_spec (- m) 0); [|lia].
  replace (Z.to_nat (Z.max (Z.of_nat (length a) + - m) 0))
    with (length a - Z.to_nat m)%nat by lia.
  split; [reflexivity|]. rewrite length_drop. lia.
Qed.

(** [a.slice(-0)] is [a.slice(0)]: the whole array. *)
Lemma slice_from_zero {A} (a : list A) : slice_from (- 0) a = a.
Proof.
  unfold slice_from. cbv zeta. change (- 0) with 0.
  destruct (Z.ltb_spec 0 0); [lia|]. rewrite Z.min_l by lia. reflexivity.
Qed.

(** [a.slice(0, n)] with [0 <= n]: the first [n] elements. *)
Lemma slice_to_first {A} (n : Z) (a : list A) :
  0 <= n -> slice_to n a = take (Z.to_nat n) a.
Proof.
  intros Hn. unfold slice_to. cbv zeta.
  destruct (Z.ltb_spec n 0); [lia|].
  destruct (Z.le_ge_cases n (Z.of_nat (length a))).
  - f_equal. lia.
  - rewrite !take_ge by lia. reflexivity.
Qed.

End JsArrayFacts.

(** ** AudioCaptureManager: lifecycle and drain *)

Module AudioCaptureLifecycleCorrect.

Import AudioCaptureManager AudioCaptureManagerFacts AudioCaptureLifecycle.

(** X6.  [stopCapture()] does nothing when no capture runs, and once it
    has run a second call does nothing.  It emits [captureStopped] exactly
    when a capture was running.  It keeps the chunk history, the classifier
    state and the driver; after it deliveries are ignored, and after it
    stopped a capture the buffer and configuration are gone, the timer is
    off and a stray drain turn does nothing. *)
Theorem stopCapture_halts (m : t) :
  let m1 := fst (stopCapture m) in
  snd (stopCapture m) = (if isCapturing m then [captureStopped] else []) /\
  (isCapturing m = false -> m1 = m) /\
  isCapturing m1 = false /\
  stopCapture m1 = (m1, []) /\
  audioChunks m1 = audioChunks m /\
  vad m1 = vad m /\
  nativeModule m1 = nativeModule m /\
  (forall floatData, onAudioData floatData m1 = (m1, [])) /\
  (isCapturing m = true ->
   ringBuffer m1 = None /\ currentConfig m1 = None /\
   processingInterval m1 = false /\
   forall now maxChunks, processAudioChunks now maxChunks m1 = (Done, m1, [])).
Proof.
  unfold stopCapture. destruct (isCapturing m) eqn:Hc; simpl.
  - repeat split; try discriminate; try reflexivity.
  - rewrite Hc. repeat split; try discriminate; try reflexivity.
    intros floatData. apply onAudioData_idle. exact Hc.
Qed.

(** X7.  A capture can be restarted.  From an idle manager whose driver
    accepts both configurations: [startCapture] succeeds; a second
    [startCapture] while capturing throws "already in progress" and changes
    nothing; [stopCapture] emits [captureStopped]; and [startCapture] then
    succeeds again, with a new buffer of ten seconds at the new rate, the
    new configuration and an empty history. *)
Theorem start_stop_start (config config2 : AudioCaptureConfig) (m : t)
    (native : NativeAudioModule) :
  isCapturing m = false ->
  nativeModule m = Some native ->
  0 <= sampleRate config * channels config * 10 ->
  0 <= sampleRate config2 * channels config2 * 10 ->
  native_startCapture native config = true ->
  native_startCapture native config2 = true ->
  exists m1 m2 m3 rb3,
    startCapture config m = (Done, m1, [captureStarted config]) /\
    startCapture config2 m1 =
      (Throw (CaptureError "Audio capture already in progress"), m1, []) /\
    stopCapture m1 = (m2, [captureStopped]) /\
    startCapture config2 m2 = (Done, m3, [captureStarted config2]) /\
    isCapturing m3 = true /\
    currentConfig m3 = Some config2 /\
    audioChunks m3 = [] /\
    ringBuffer m3 = Some rb3 /\
    RingBuffer.size rb3 = sampleRate config2 * channels config2 * 10.
Proof.
  intros Hc Hn Hsz Hsz2 Hok Hok2.
  destruct (startCapture_reaches_driver config m native Hc Hn Hsz)
    as (rb1 & _ & _ & E1). rewrite Hok in E1.
  set (m1 := mk (nativeModule m) (Some rb1) (vad m) true (Some config) [] true)
    in *.
  set (m2 := mk (nativeModule m) None (vad m) false None [] false).
  destruct (startCapture_reaches_driver config2 m2 native eq_refl Hn Hsz2)
    as (rb3 & _ & Esz & E3). rewrite Hok2 in E3.
  exists m1, m2. eexists. exists rb3.
  split; [exact E1|]. split; [reflexivity|]. split; [reflexivity|].
  split; [exact E3|]. repeat split. exact Esz.
Qed.

Lemma start_stop_start_witness :
  let config := mkConfig "default" 44100 1 100 in
  let config2 := mkConfig "usb" 48000 2 50 in
  exists m1 m2 m3 rb3,
    startCapture config ready = (Done, m1, [captureStarted config]) /\
    startCapture config2 m1 =
      (Throw (CaptureError "Audio capture already in progress"), m1, []) /\
    stopCapture m1 = (m2, [captureStopped]) /\
    startCapture config2 m2 = (Done, m3, [captureStarted config2]) /\
    isCapturing m3 = true /\
    currentConfig m3 = Some config2 /\
    audioChunks m3 = [] /\
    ringBuffer m3 = Some rb3 /\
    RingBuffer.size rb3 = sampleRate config2 * channels config2 * 10.
Proof.
  intros config config2.
  apply (start_stop_start config config2 ready mock_driver);
    try reflexivity; simpl; lia.
Defined.

(** X8.  [cleanup()] stops a running capture (one [captureStopped]) and
    lets go of the driver; a [startCapture] after it throws "Native module
    not initialized" and changes nothing. *)
Theorem cleanup_releases_driver (config : AudioCaptureConfig) (m : t) :
  let m1 := fst (cleanup m) in
  snd (cleanup m) = (if isCapturing m then [captureStopped] else []) /\
  nativeModule m1 = None /\
  isCapturing m1 = false /\
  audioChunks m1 = audioChunks m /\
  startCapture config m1 =
    (Throw (CaptureError "Native module not initialized"), m1, []).
Proof.
  unfold cleanup, stopCapture. destruct (isCapturing m) eqn:Hc; simpl.
  - repeat split.
  - rewrite Hc. repeat split.
Qed.

(** What a drain turn does when a full second is pending. *)
Lemma drain_full now maxChunks m rb config :
  ringBuffer m = Some rb ->
  currentConfig m = Some config ->
  RingBuffer.wf rb ->
  0 <= sampleRate config * channels config ->
  sampleRate config * channels config <= RingBuffer.getAvailableData rb ->
  let n := Z.to_nat (sampleRate config * channels config) in
  let audioData := take n (RingBuffer.contents rb) in
  exists rb',
    RingBuffer.wf rb' /\
    RingBuffer.contents rb' = drop n (RingBuffer.contents rb) /\
    RingBuffer.getAvailableData rb' =
      RingBuffer.getAvailableData rb - sampleRate config * channels config /\
    Float32Array.len audioData = sampleRate config * channels config /\
    processAudioChunks now maxChunks m =
      let (hasVoice, vad') :=
        VoiceActivityDetector.processAudio audioData now (vad m) in
      if hasVoice then
        let chunk := mkChunk audioData now 1000
                             (sampleRate config) (channels config) in
        (Done,
         mk (nativeModule m) (Some rb') vad' (isCapturing m) (currentConfig m)
            (if Z.of_nat (length (audioChunks m ++ [chunk])) >? maxChunks
             then JsArray.slice_from (- maxChunks) (audioChunks m ++ [chunk])
             else audioChunks m ++ [chunk])
            (processingInterval m),
         [audioChunk chunk])
      else
        (Done,
         mk (nativeModule m) (Some rb') vad' (isCapturing m) (currentConfig m)
            (audioChunks m) (processingInterval m),
         []).
Proof.
  intros Hrb Hcfg Hwf H0 Hfull n audioData.
  destruct (RingBufferFacts.read_spec n rb Hwf)
    as (xs & rb' & E & R1 & R2 & R3 & R4 & R5 & _).
  assert (Z.of_nat n = sampleRate config * channels config) as En
      by (unfold n; lia).
  rewrite En in E, R3.
  assert (Float32Array.len xs = sampleRate config * channels config) as Hlen
      by lia.
  exists rb'. split; [exact R4|]. split; [exact R2|]. split; [lia|].
  subst xs. fold audioData in E, Hlen. split; [exact Hlen|].
  unfold processAudioChunks. rewrite Hrb, Hcfg. cbv zeta.
  destruct (Z.geb_spec (RingBuffer.getAvailableData rb)
                       (sampleRate config * channels config)); [|lia].
  rewrite E. reflexivity.
Qed.

(** X9.  The drain works in whole seconds.  With fewer samples pending than
    one second holds, a drain turn changes nothing and emits nothing.  With
    a full second pending it takes exactly the oldest second out of the
    buffer and shows it to the classifier; it emits one [audioChunk]
    carrying just those samples (timestamp [now], duration 1000, the
    configured rate and channels) exactly when the classifier answers
    [true], and otherwise emits nothing and leaves the history alone: the
    samples are gone either way. *)
Theorem drain_takes_whole_seconds (now maxChunks : Z) (m : t)
    (rb : RingBuffer.t) (config : AudioCaptureConfig) :
  ringBuffer m = Some rb ->
  currentConfig m = Some config ->
  let perChunk := sampleRate config * channels config in
  let drained := processAudioChunks now maxChunks m in
  (RingBuffer.getAvailableData rb < perChunk -> drained = (Done, m, [])) /\
  (RingBuffer.wf rb -> 0 <= perChunk ->
   perChunk <= RingBuffer.getAvailableData rb ->
   let audioData := take (Z.to_nat perChunk) (RingBuffer.contents rb) in
   let heard := VoiceActivityDetector.processAudio audioData now (vad m) in
   exists rb',
     fst (fst drained) = Done /\
     ringBuffer (snd (fst drained)) = Some rb' /\
     RingBuffer.contents rb' =
       drop (Z.to_nat perChunk) (RingBuffer.contents rb) /\
     RingBuffer.getAvailableData rb' =
       RingBuffer.getAvailableData rb - perChunk /\
     Float32Array.len audioData = perChunk /\
     vad (snd (fst drained)) = snd heard /\
     snd drained =
       (if fst heard
        then [audioChunk (mkChunk audioData now 1000
                                  (sampleRate config) (channels config))]
        else []) /\
     (fst heard = false ->
      audioChunks (snd (fst drained)) = audioChunks m)).
Proof.
  intros Hrb Hcfg perChunk drained. split.
  - intros Hshort. unfold drained, processAudioChunks.
    rewrite Hrb, Hcfg. cbv zeta. fold perChunk.
    destruct (Z.geb_spec (RingBuffer.getAvailableData rb) perChunk); [lia|].
    reflexivity.
  - intros Hwf H0 Hfull audioData heard.
    destruct (drain_full now maxChunks m rb config Hrb Hcfg Hwf H0 Hfull)
      as (rb' & _ & D2 & D3 & D4 & D5).
    cbv zeta in D5. fold perChunk in D2, D3, D4, D5.
    fold audioData in D4, D5. exists rb'.
    unfold drained. rewrite D5. fold heard.
    destruct heard as [hasVoice vad']. destruct hasVoice; simpl.
    + repeat split; try assumption. discriminate.
    + repeat split; assumption.
Qed.

Lemma drain_takes_whole_seconds_witness :
  let config := mkConfig "default" 1 2 100 in
  let rb := RingBuffer.mk
              [0.5; 0.5; 0.5; 0; 0; 0; 0; 0; 0; 0; 0; 0; 0; 0; 0; 0; 0; 0; 0; 0]%float
              3 0 20 in
  let m := mk (Some mock_driver) (Some rb) VoiceActivityDetector.new_default
              true (Some config) [] true in
  let perChunk := sampleRate config * channels config in
  let drained := processAudioChunks 5000 100 m in
  let audioData := take (Z.to_nat perChunk) (RingBuffer.contents rb) in
  let heard := VoiceActivityDetector.processAudio audioData 5000 (vad m) in
  exists rb',
    fst (fst drained) = Done /\
    ringBuffer (snd (fst drained)) = Some rb' /\
    RingBuffer.contents rb' =
      drop (Z.to_nat perChunk) (RingBuffer.contents rb) /\
    RingBuffer.getAvailableData rb' =
      RingBuffer.getAvailableData rb - perChunk /\
    Float32Array.len audioData = perChunk /\
    vad (snd (fst drained)) = snd heard /\
    snd drained =
      (if fst heard
       then [audioChunk (mkChunk audioData 5000 1000
                                 (sampleRate config) (channels config))]
       else []) /\
    (fst heard = false ->
     audioChunks (snd (fst drained)) = audioChunks m).
Proof.
  intros config rb m perChunk drained.
  apply (proj2 (drain_takes_whole_seconds 5000 100 m rb config eq_refl eq_refl)).
  - unfold RingBuffer.wf, Float32Array.len; simpl. lia.
  - simpl. lia.
  - vm_compute. discriminate.
Defined.

(** X10.  Producer and consumer meet in order.  Into an empty buffer of a
    running capture two deliveries that fit are stored without any event;
    the drain turn after them hears the first second of the first delivery
    followed by the second, and leaves the rest pending in the same
    order. *)
Theorem deliveries_then_drain (d1 d2 : list sample) (now maxChunks : Z)
    (m : t) (rb : RingBuffer.t) (config : AudioCaptureConfig) :
  isCapturing m = true ->
  ringBuffer m = Some rb ->
  currentConfig m = Some config ->
  RingBuffer.wf rb ->
  RingBuffer.getAvailableData rb = 0 ->
  Float32Array.len d1 + Float32Array.len d2 <= RingBuffer.size rb - 1 ->
  let perChunk := sampleRate config * channels config in
  0 <= perChunk ->
  perChunk <= Float32Array.len d1 + Float32Array.len d2 ->
  let m1 := fst (onAudioData d1 m) in
  let m2 := fst (onAudioData d2 m1) in
  let drained := processAudioChunks now maxChunks m2 in
  let audioData := take (Z.to_nat perChunk) (d1 ++ d2) in
  let heard := VoiceActivityDetector.processAudio audioData now (vad m) in
  snd (onAudioData d1 m) = [] /\
  snd (onAudioData d2 m1) = [] /\
  exists rb',
    ringBuffer (snd (fst drained)) = Some rb' /\
    RingBuffer.contents rb' = drop (Z.to_nat perChunk) (d1 ++ d2) /\
    vad (snd (fst drained)) = snd heard /\
    snd drained =
      (if fst heard
       then [audioChunk (mkChunk audioData now 1000
                                 (sampleRate config) (channels config))]
       else []).
Proof.
  intros Hc Hrb Hcfg Hwf Hempty Hfit perChunk H0 Hfull m1 m2 drained
         audioData heard.
  assert (RingBuffer.contents rb = []) as Hnil
      by (unfold RingBuffer.contents; rewrite Hempty; reflexivity).
  assert (0 <= Float32Array.len d1 /\ 0 <= Float32Array.len d2) as [Hd1 Hd2]
      by (unfold Float32Array.len; lia).
  destruct (RingBufferFacts.write_spec d1 rb Hwf)
    as (rb1 & W & Wwf & Wc & Wa & _ & Hsz1 & _);
    [unfold RingBuffer.getAvailableSpace; lia|].
  assert (onAudioData d1 m =
          (mk (nativeModule m) (Some rb1) (vad m) true (currentConfig m)
              (audioChunks m) (processingInterval m), [])) as E1.
  { unfold onAudioData. rewrite Hc, Hrb, Hcfg. cbn [negb]. rewrite W.
    reflexivity. }
  destruct (RingBufferFacts.write_spec d2 rb1 Wwf)
    as (rb2 & W2 & W2wf & W2c & W2a & _);
    [unfold RingBuffer.getAvailableSpace; lia|].
  assert (onAudioData d2 m1 =
          (mk (nativeModule m) (Some rb2) (vad m) true (currentConfig m)
              (audioChunks m) (processingInterval m), [])) as E2.
  { unfold m1. rewrite E1. unfold onAudioData. simpl. rewrite Hcfg.
    rewrite W2. reflexivity. }
  split; [rewrite E1; reflexivity|]. split; [rewrite E2; reflexivity|].
  assert (RingBuffer.contents rb2 = d1 ++ d2) as Hc2
      by (rewrite W2c, Wc, Hnil; reflexivity).
  destruct (drain_takes_whole_seconds now maxChunks m2 rb2 config) as [_ D].
  { unfold m2. rewrite E2. reflexivity. }
  { unfold m2. rewrite E2. simpl. exact Hcfg. }
  cbv zeta in D. fold perChunk in D.
  destruct (D W2wf H0 ltac:(lia)) as (rb' & _ & D2 & D3 & _ & _ & D6 & D7 & _).
  rewrite Hc2 in D3, D6, D7. fold audioData in D6, D7.
  assert (vad m2 = vad m) as Hv by (unfold m2; rewrite E2; reflexivity).
  rewrite Hv in D6, D7. fold heard in D6, D7.
  exists rb'. repeat split; assumption.
Qed.

Lemma deliveries_then_drain_witness :
  let config := mkConfig "default" 3 1 100 in
  let rb := RingBuffer.mk (replicate 30 0%float) 7 7 30 in
  let m := mk (Some mock_driver) (Some rb) VoiceActivityDetector.new_default
              true (Some config) [] true in
  let d1 := [0.5; 0.25]%float in
  let d2 := [0.125; 1]%float in
  let perChunk := sampleRate config * channels config in
  let m1 := fst (onAudioData d1 m) in
  let m2 := fst (onAudioData d2 m1) in
  let drained := processAudioChunks 5000 100 m2 in
  let audioData := take (Z.to_nat perChunk) (d1 ++ d2) in
  let heard := VoiceActivityDetector.processAudio audioData 5000 (vad m) in
  snd (onAudioData d1 m) = [] /\
  snd (onAudioData d2 m1) = [] /\
  exists rb',
    ringBuffer (snd (fst drained)) = Some rb' /\
    RingBuffer.contents rb' = drop (Z.to_nat perChunk) (d1 ++ d2) /\
    vad (snd (fst drained)) = snd heard /\
    snd drained =
      (if fst heard
       then [audioChunk (mkChunk audioData 5000 1000
                                 (sampleRate config) (channels config))]
       else []).
Proof.
  intros config rb m d1 d2.
  apply (deliveries_then_drain d1 d2 5000 100 m rb config);
    try reflexivity.
  - unfold RingBuffer.wf, Float32Array.len; simpl. lia.
  - vm_compute. discriminate.
  - simpl. lia.
  - vm_compute. discriminate.
Defined.

(** X11.  The first second of speech is never emitted.  When the
    classifier is not speaking (and its minimum speech duration is not
    negative), a drain turn with a full second pending consumes that second
    and emits nothing, however loud it is: the classifier only starts its
    speech timer on it.  The history stays as it was. *)
Theorem first_second_not_emitted (now maxChunks : Z) (m : t)
    (rb : RingBuffer.t) (config : AudioCaptureConfig) :
  ringBuffer m = Some rb ->
  currentConfig m = Some config ->
  RingBuffer.wf rb ->
  0 <= sampleRate config * channels config ->
  sampleRate config * channels config <= RingBuffer.getAvailableData rb ->
  VoiceActivityDetector.isSpeaking (vad m) = false ->
  0 <= VoiceActivityDetector.minSpeechDuration (vad m) ->
  exists rb',
    snd (processAudioChunks now maxChunks m) = [] /\
    audioChunks (snd (fst (processAudioChunks now maxChunks m))) =
      audioChunks m /\
    ringBuffer (snd (fst (processAudioChunks now maxChunks m))) = Some rb' /\
    RingBuffer.getAvailableData rb' =
      RingBuffer.getAvailableData rb - sampleRate config * channels config.
Proof.
  intros Hrb Hcfg Hwf H0 Hfull Hidle Hmin.
  destruct (drain_takes_whole_seconds now maxChunks m rb config Hrb Hcfg)
    as [_ D].
  destruct (D Hwf H0 Hfull) as (rb' & _ & D2 & _ & D4 & _ & _ & D7 & D8).
  pose proof (VoiceActivityDetectorMore.first_answer_false
                (take (Z.to_nat (sampleRate config * channels config))
                      (RingBuffer.contents rb)) now (vad m) Hidle Hmin) as F.
  rewrite F in D7. exists rb'. repeat split; auto.
Qed.

Lemma first_second_not_emitted_witness :
  let config := mkConfig "default" 1 2 100 in
  let rb := RingBuffer.mk
              [0.5; 0.5; 0.5; 0; 0; 0; 0; 0; 0; 0; 0; 0; 0; 0; 0; 0; 0; 0; 0; 0]%float
              3 0 20 in
  let m := mk (Some mock_driver) (Some rb) VoiceActivityDetector.new_default
              true (Some config) [] true in
  exists rb',
    snd (processAudioChunks 5000 100 m) = [] /\
    audioChunks (snd (fst (processAudioChunks 5000 100 m))) = audioChunks m /\
    ringBuffer (snd (fst (processAudioChunks 5000 100 m))) = Some rb' /\
    RingBuffer.getAvailableData rb' =
      RingBuffer.getAvailableData rb - sampleRate config * channels config.
Proof.
  intros config rb m.
  apply (first_second_not_emitted 5000 100 m rb config);
    try reflexivity.
  - unfold RingBuffer.wf, Float32Array.len; simpl. lia.
  - simpl. lia.
  - vm_compute. discriminate.
  - simpl. lia.
Defined.

(** X12.  The history limit.  With a positive limit, a history within the
    limit stays within it over a drain turn: once full, each new chunk
    pushes the oldest one out.  A limit of 0 limits nothing: [slice(-0)]
    keeps the whole array, so the history only grows. *)
Theorem history_limit (now maxChunks : Z) (m : t) :
  let m' := snd (fst (processAudioChunks now maxChunks m)) in
  (0 < maxChunks ->
   Z.of_nat (length (audioChunks m)) <= maxChunks ->
   Z.of_nat (length (audioChunks m')) <= maxChunks) /\
  (maxChunks = 0 ->
   exists more, audioChunks m' = audioChunks m ++ more).
Proof.
  cbv zeta. unfold processAudioChunks.
  destruct (ringBuffer m) as [rb|], (currentConfig m) as [config|];
    try (split; [intros; assumption
                |intros; exists []; rewrite app_nil_r; reflexivity]).
  cbv zeta. destruct (_ >=? _);
    try (split; [intros; assumption
                |intros; exists []; rewrite app_nil_r; reflexivity]).
  destruct (RingBuffer.read _ rb) as [[audioData rb']|];
    try (split; [intros; assumption
                |intros; exists []; rewrite app_nil_r; reflexivity]).
  destruct (VoiceActivityDetector.processAudio _ _ _) as [hasVoice vad'].
  destruct hasVoice; simpl;
    try (split; [intros; assumption
                |intros; exists []; rewrite app_nil_r; reflexivity]).
  set (chunk := mkChunk audioData now 1000 (sampleRate config) (channels config)).
  assert (Z.of_nat (length (audioChunks m ++ [chunk])) =
          Z.of_nat (length (audioChunks m)) + 1) as Hl
      by (rewrite length_app; simpl; lia).
  split.
  - intros Hpos Hlen.
    destruct (Z.gtb_spec (Z.of_nat (length (audioChunks m ++ [chunk]))) maxChunks)
      as [Hover|Hfit]; [|lia].
    destruct (JsArrayFacts.slice_from_last maxChunks (audioChunks m ++ [chunk])
                Hpos Hover) as [_ L]. lia.
  - intros ->.
    destruct (Z.gtb_spec (Z.of_nat (length (audioChunks m ++ [chunk]))) 0).
    + rewrite JsArrayFacts.slice_from_zero. exists [chunk]. reflexivity.
    + exists [chunk]. reflexivity.
Qed.

End AudioCaptureLifecycleCorrect.

(** ** AudioDeviceManager: the cache *)

Module DeviceCacheCorrect.

Import AudioDeviceManager DeviceCache.

Lemma find_app {A} (p : A -> bool) (l1 l2 : list A) :
  find p (l1 ++ l2) =
    match find p l1 with
    | Some x => Some x
    | None => find p l2
    end.
Proof.
  induction l1 as [|a l1 IH]; simpl; [reflexivity|].
  destruct (p a); [reflexivity|exact IH].
Qed.

Lemma has_set m k d k' :
  has (set m k d) k' = has m k' || String.eqb k k'.
Proof.
  induction m as [|[k0 d0] m IH]; simpl.
  - rewrite orb_false_r. reflexivity.
  - destruct (String.eqb_spec k0 k) as [->|Hne]; simpl.
    + destruct (String.eqb k k'), (has m k'); reflexivity.
    + rewrite IH. rewrite orb_assoc. reflexivity.
Qed.

Lemma has_In m k : has m k = true <-> In k (map fst m).
Proof.
  unfold has. rewrite existsb_exists. split.
  - intros ([k0 d0] & Hin & E). apply String.eqb_eq in E. simpl in E. subst.
    apply in_map_iff. exists (k, d0). auto.
  - intros Hin. apply in_map_iff in Hin. destruct Hin as ([k0 d0] & E & Hin).
    simpl in E. subst. exists (k, d0). split; [exact Hin|apply String.eqb_refl].
Qed.

Lemma get_set m k d k' :
  get (set m k d) k' = if String.eqb k k' then Some d else get m k'.
Proof.
  unfold get. induction m as [|[k0 d0] m IH]; simpl.
  - destruct (String.eqb k k'); reflexivity.
  - destruct (String.eqb_spec k0 k) as [->|Hne]; simpl.
    + destruct (String.eqb k k'); reflexivity.
    + destruct (String.eqb_spec k0 k') as [->|Hne'].
      * destruct (String.eqb_spec k k'); [congruence|reflexivity].
      * exact IH.
Qed.

Lemma set_keys_NoDup m k d : List.NoDup (map fst m) -> List.NoDup (map fst (set m k d)).
Proof.
  induction m as [|[k0 d0] m IH]; simpl; intros Hnd.
  - constructor; [intros []|constructor].
  - inversion Hnd as [|? ? Hnot Hrest]; subst.
    destruct (String.eqb_spec k0 k) as [->|Hne]; simpl.
    + constructor; assumption.
    + constructor; [|apply IH; exact Hrest].
      intros Hin. apply has_In in Hin. rewrite has_set in Hin.
      apply orb_true_iff in Hin. destruct Hin as [Hin|Hin].
      * apply Hnot. apply has_In. exact Hin.
      * apply String.eqb_eq in Hin. congruence.
Qed.

Lemma set_keyed m d : keyed m -> keyed (set m (id d) d).
Proof.
  unfold keyed. induction m as [|[k0 d0] m IH]; simpl; intros Hk.
  - constructor; [reflexivity|constructor].
  - inversion Hk; subst. destruct (String.eqb k0 (id d)).
    + constructor; [reflexivity|assumption].
    + constructor; [assumption|apply IH; assumption].
Qed.

(** A new key goes to the end. *)
Lemma set_fresh m k d : has m k = false -> set m k d = m ++ [(k, d)].
Proof.
  induction m as [|[k0 d0] m IH]; simpl; intros Hf; [reflexivity|].
  apply orb_false_iff in Hf. destruct Hf as [Hne Hf]. simpl in Hne.
  rewrite Hne. rewrite (IH Hf). reflexivity.
Qed.

Lemma refresh_from_spec l : forall c,
  List.NoDup (map fst (devices c)) -> keyed (devices c) ->
  List.NoDup (map fst (devices (refresh_from c l))) /\
  keyed (devices (refresh_from c l)) /\
  (forall k,
      get (devices (refresh_from c l)) k =
        match find (fun d => String.eqb (id d) k) (rev l) with
        | Some d => Some d
        | None => get (devices c) k
        end) /\
  defaultDeviceId (refresh_from c l) =
    match find isDefault (rev l) with
    | Some d => Some (id d)
    | None => defaultDeviceId c
    end.
Proof.
  induction l as [|d l IH]; intros c Hnd Hk.
  - simpl. auto.
  - unfold refresh_from in *. cbn [fold_left].
    set (c1 := mk (set (devices c) (id d) d)
                  (if isDefault d then Some (id d) else defaultDeviceId c)).
    destruct (IH c1) as (I1 & I2 & I3 & I4).
    { apply set_keys_NoDup. exact Hnd. }
    { apply set_keyed. exact Hk. }
    split; [exact I1|]. split; [exact I2|]. split.
    + intros k. rewrite I3. cbn [rev]. rewrite find_app.
      destruct (find (fun d0 => String.eqb (id d0) k) (rev l)); [reflexivity|].
      unfold c1; simpl. rewrite get_set. destruct (String.eqb (id d) k); reflexivity.
    + rewrite I4. cbn [rev]. rewrite find_app.
      destruct (find isDefault (rev l)); [reflexivity|].
      unfold c1; simpl. destruct (isDefault d); reflexivity.
Qed.

Lemma refresh_devices l : devices (refreshDeviceList l) = refreshed l.
Proof.
  unfold refreshDeviceList, refresh_from, refreshed.
  change (@nil (string * AudioDevice)) with (devices (mk [] None)) at 2.
  generalize (mk [] None).
  induction l as [|d l IH]; intros c; [reflexivity|].
  cbn [fold_left]. rewrite IH. reflexivity.
Qed.

Lemma refresh_spec l :
  List.NoDup (map fst (devices (refreshDeviceList l))) /\
  keyed (devices (refreshDeviceList l)) /\
  (forall k, get (devices (refreshDeviceList l)) k =
             find (fun d => String.eqb (id d) k) (rev l)) /\
  defaultDeviceId (refreshDeviceList l) = option_map id (find isDefault (rev l)).
Proof.
  destruct (refresh_from_spec l (mk [] None)) as (I1 & I2 & I3 & I4).
  { constructor. }
  { constructor. }
  split; [exact I1|]. split; [exact I2|]. split.
  - intros k. unfold refreshDeviceList. rewrite I3.
    destruct (find (fun d => String.eqb (id d) k) (rev l)); reflexivity.
  - unfold refreshDeviceList. rewrite I4.
    destruct (find isDefault (rev l)); reflexivity.
Qed.

Lemma find_none_iff {A} (p : A -> bool) (l : list A) :
  find p l = None <-> forall x, In x l -> p x = false.
Proof.
  split; [apply find_none|].
  induction l as [|a l IH]; intros H; [reflexivity|]. simpl.
  rewrite (H a (or_introl eq_refl)). apply IH. intros x Hx. apply H. right. exact Hx.
Qed.

(** X13.  The cache is a map from ids.  After a refresh on the driver's
    list, [getDevice(id)] answers the last device the driver listed under
    that id, and nothing exactly when the driver listed none;
    [isDeviceAvailable(id)] is that device's enabled flag, [false] when
    there is none; and the cache holds no id twice, each entry under the id
    of its device. *)
Theorem getDevice_last_listed (deviceId : string) (nativeDevices : list AudioDevice) :
  fst (getDevice deviceId nativeDevices) =
    find (fun d => String.eqb (id d) deviceId) (rev nativeDevices) /\
  (fst (getDevice deviceId nativeDevices) = None <->
   ~ In deviceId (map id nativeDevices)) /\
  fst (isDeviceAvailable deviceId nativeDevices) =
    match find (fun d => String.eqb (id d) deviceId) (rev nativeDevices) with
    | Some d => isEnabled d
    | None => false
    end /\
  List.NoDup (map fst (devices (snd (getDevice deviceId nativeDevices)))) /\
  keyed (devices (snd (getDevice deviceId nativeDevices))).
Proof.
  destruct (refresh_spec nativeDevices) as (S1 & S2 & S3 & _).
  unfold isDeviceAvailable, getDevice. cbv zeta. cbn [fst snd].
  rewrite S3. split; [reflexivity|]. split; [|split; [reflexivity|split; assumption]].
  rewrite find_none_iff. split.
  - intros Hnone Hin. apply in_map_iff in Hin. destruct Hin as (d & E & Hd).
    specialize (Hnone d ltac:(apply in_rev; rewrite rev_involutive; exact Hd)).
    rewrite E, String.eqb_refl in Hnone. discriminate.
  - intros Hnot d Hd. apply String.eqb_neq. intros E. apply Hnot.
    apply in_map_iff. exists d. split; [exact E|]. apply in_rev. exact Hd.
Qed.

Lemma refreshed_fresh l : forall m,
  (forall d, In d l -> has m (id d) = false) ->
  List.NoDup (map id l) ->
  fold_left (fun m device => set m (id device) device) l m =
    m ++ map (fun d => (id d, d)) l.
Proof.
  induction l as [|d l IH]; intros m Hf Hnd; simpl.
  - rewrite app_nil_r. reflexivity.
  - inversion Hnd as [|? ? Hnot Hrest]; subst.
    rewrite (set_fresh m (id d) d) by (apply Hf; left; reflexivity).
    rewrite IH; [rewrite <- app_assoc; reflexivity| |exact Hrest].
    intros d' Hd'. unfold has. rewrite existsb_app. simpl.
    unfold has in Hf. rewrite (Hf d' (or_intror Hd')). simpl.
    rewrite orb_false_r. apply String.eqb_neq. intros E. apply Hnot.
    rewrite E. apply in_map. exact Hd'.
Qed.

(** X14.  When the driver lists no id twice, [listDevices()] answers the
    driver's list as it is, in the driver's order. *)
Theorem listDevices_round_trip (nativeDevices : list AudioDevice) :
  List.NoDup (map id nativeDevices) ->
  fst (listDevices nativeDevices) = nativeDevices.
Proof.
  intros Hnd. unfold listDevices. cbv zeta. cbn [fst].
  rewrite refresh_devices. unfold refreshed.
  rewrite refreshed_fresh; [|intros; reflexivity|exact Hnd].
  unfold values. simpl. rewrite map_map. simpl. apply map_id.
Qed.

Lemma listDevices_round_trip_witness :
  let mockList :=
    [mkDevice "default" "Default Microphone" true true 1 44100;
     mkDevice "microphone-1" "USB Microphone" false true 1 48000;
     mkDevice "microphone-2" "Built-in Microphone" false true 2 44100] in
  fst (listDevices mockList) = mockList.
Proof.
  intros mockList. apply (listDevices_round_trip mockList).
  repeat constructor; simpl; intuition discriminate.
Defined.

Lemma same_id_same_device (l : list AudioDevice) d d' :
  List.NoDup (map id l) -> In d l -> In d' l -> id d = id d' -> d = d'.
Proof.
  induction l as [|a l IH]; intros Hnd Hd Hd' E; [contradiction|].
  inversion Hnd as [|? ? Hnot Hrest]; subst.
  destruct Hd as [<-|Hd], Hd' as [<-|Hd'].
  - reflexivity.
  - exfalso. apply Hnot. rewrite E. apply in_map. exact Hd'.
  - exfalso. apply Hnot. rewrite <- E. apply in_map. exact Hd.
  - apply IH; assumption.
Qed.

(** X15.  Which device [getDefaultDevice()] answers, when the driver lists
    no id twice: the last device the driver marks default; but if no device
    is marked, or the marked one has the empty id, the first enabled device
    of the list; and nothing if none is enabled either. *)
Theorem getDefaultDevice_choice (nativeDevices : list AudioDevice) :
  List.NoDup (map id nativeDevices) ->
  fst (getDefaultDevice nativeDevices) =
    match find isDefault (rev nativeDevices) with
    | Some d =>
        if truthy (id d) then Some d else find isEnabled nativeDevices
    | None => find isEnabled nativeDevices
    end.
Proof.
  intros Hnd.
  destruct (refresh_spec nativeDevices) as (_ & _ & S3 & S4).
  pose proof (listDevices_round_trip nativeDevices Hnd) as Hv.
  unfold listDevices in Hv. cbv zeta in Hv. cbn [fst] in Hv.
  unfold getDefaultDevice. cbv zeta. cbn [fst]. rewrite S4, Hv.
  destruct (find isDefault (rev nativeDevices)) as [d|] eqn:Ed; simpl;
    [|reflexivity].
  destruct (truthy (id d)); [|reflexivity].
  rewrite S3.
  destruct (find (fun d0 => String.eqb (id d0) (id d)) (rev nativeDevices))
    as [d'|] eqn:Ed'.
  - apply find_some in Ed'. destruct Ed' as [Hin' E']. apply String.eqb_eq in E'.
    apply find_some in Ed. destruct Ed as [Hin _].
    f_equal. apply (same_id_same_device nativeDevices); auto;
      apply in_rev; assumption.
  - apply find_some in Ed. destruct Ed as [Hin _].
    pose proof (find_none _ _ Ed' d Hin) as Hn. simpl in Hn.
    rewrite String.eqb_refl in Hn. discriminate.
Qed.

Lemma getDefaultDevice_choice_witness :
  let a := mkDevice "usb-a" "USB Microphone" false true 1 48000 in
  let b := mkDevice "built-in" "Built-in Microphone" true false 2 44100 in
  let c := mkDevice "headset" "Headset" true true 1 16000 in
  fst (getDefaultDevice [a; b; c]) =
    match find isDefault (rev [a; b; c]) with
    | Some d => if truthy (id d) then Some d else find isEnabled [a; b; c]
    | None => find isEnabled [a; b; c]
    end.
Proof.
  intros a b c. apply (getDefaultDevice_choice [a; b; c]).
  repeat constructor; simpl; intuition discriminate.
Defined.

End DeviceCacheCorrect.

(** ** AudioDeviceManager: what a diff reports when no device comes or goes *)

Module DeviceDiffMore.

Import AudioDeviceManager DeviceCacheCorrect.

Lemma get_In (m : DeviceMap) k d :
  List.NoDup (map fst m) -> In (k, d) m -> get m k = Some d.
Proof.
  unfold get. induction m as [|[k0 d0] m IH]; intros Hnd Hin; [contradiction|].
  inversion Hnd as [|? ? Hnot Hrest]; subst. simpl.
  destruct Hin as [E|Hin].
  - injection E as -> ->. rewrite String.eqb_refl. reflexivity.
  - destruct (String.eqb_spec k0 k) as [->|Hne].
    + exfalso. apply Hnot. apply in_map_iff. exists (k, d). auto.
    + apply IH; assumption.
Qed.

Lemma flat_map_nil {A B} (f : A -> list B) (l : list A) :
  (forall x, In x l -> f x = []) -> flat_map f l = [].
Proof.
  induction l as [|a l IH]; intros H; [reflexivity|]. simpl.
  rewrite (H a (or_introl eq_refl)). apply IH. intros x Hx. apply H. right. exact Hx.
Qed.

Lemma flat_map_same {A B} (f g : A -> list B) (l : list A) :
  (forall x, In x l -> f x = g x) -> flat_map f l = flat_map g l.
Proof.
  induction l as [|a l IH]; intros H; [reflexivity|]. simpl.
  rewrite (H a (or_introl eq_refl)). f_equal.
  apply IH. intros x Hx. apply H. right. exact Hx.
Qed.

Lemma flat_map_map {A B C} (f : B -> list C) (h : A -> B) (l : list A) :
  flat_map f (map h l) = flat_map (fun x => f (h x)) l.
Proof.
  induction l as [|a l IH]; simpl; [reflexivity|]. rewrite IH. reflexivity.
Qed.

Lemma find_map_marked {A} (p : AudioDevice -> bool) (h1 h2 : A -> AudioDevice)
    (l : list A) :
  (forall x, In x l -> p (h2 x) = p (h1 x)) ->
  find p (map h1 l) = option_map h1 (find (fun x => p (h1 x)) l) /\
  find p (map h2 l) = option_map h2 (find (fun x => p (h1 x)) l).
Proof.
  induction l as [|a l IH]; intros H; [split; reflexivity|]. simpl.
  rewrite (H a (or_introl eq_refl)).
  destruct (p (h1 a)); [split; reflexivity|].
  apply IH. intros x Hx. apply H. right. exact Hx.
Qed.

(** X16.  A diff between two caches with the same ids in the same order,
    where each device keeps its id and its default mark, reports state
    changes and nothing else: one [stateChanged] event, carrying the new
    record, for each device whose enabled flag flipped, in cache order.  A
    change of name, channel count or sample rate alone is reported by no
    event; in particular a diff of a cache against itself is empty. *)
Theorem diff_reports_only_flips (oldDevices : DeviceMap)
    (renew : string * AudioDevice -> AudioDevice) (now : Z) :
  List.NoDup (map fst oldDevices) ->
  (forall e, In e oldDevices ->
             id (renew e) = id (snd e) /\
             isDefault (renew e) = isDefault (snd e)) ->
  detectDeviceChanges oldDevices
                      (map (fun e => (fst e, renew e)) oldDevices) now =
    flat_map (fun e =>
                if negb (Bool.eqb (isEnabled (snd e)) (isEnabled (renew e)))
                then [mkEvent stateChanged (renew e) now] else [])
             oldDevices.
Proof.
  intros Hnd Hsame.
  set (newDevices := map (fun e => (fst e, renew e)) oldDevices).
  assert (map fst newDevices = map fst oldDevices) as Hkeys
      by (unfold newDevices; rewrite map_map; reflexivity).
  unfold detectDeviceChanges. cbv zeta.
  rewrite (flat_map_nil _ newDevices), (flat_map_nil _ oldDevices).
  - destruct (find_map_marked isDefault snd renew oldDevices) as [F1 F2];
      [intros x Hx; apply (Hsame x Hx)|].
    assert (values newDevices = map renew oldDevices) as Hvn
        by (unfold values, newDevices; rewrite map_map; apply map_ext;
            reflexivity).
    rewrite Hvn. unfold values. rewrite F1, F2.
    destruct (find (fun x => isDefault (snd x)) oldDevices) as [e|] eqn:Ef.
    + apply find_some in Ef. destruct Ef as [Hin _].
      destruct (Hsame e Hin) as [Hid _]. simpl.
      rewrite Hid, String.eqb_refl. simpl.
      unfold newDevices. rewrite flat_map_map. cbn [fst snd].
      apply flat_map_same. intros [k d] Hk. cbn [fst snd].
      rewrite (get_In oldDevices k d Hnd Hk). reflexivity.
    + simpl. unfold newDevices. rewrite flat_map_map. cbn [fst snd].
      apply flat_map_same. intros [k d] Hk. cbn [fst snd].
      rewrite (get_In oldDevices k d Hnd Hk). reflexivity.
  - intros [k d] Hk. cbn [fst snd].
    assert (has newDevices k = true) as ->; [|reflexivity].
    apply has_In. rewrite Hkeys. apply in_map_iff. exists (k, d). auto.
  - intros [k d] Hk. cbn [fst snd].
    assert (has oldDevices k = true) as ->; [|reflexivity].
    apply has_In. rewrite <- Hkeys. apply in_map_iff. exists (k, d). auto.
Qed.

Lemma diff_reports_only_flips_witness :
  let a := mkDevice "usb-a" "USB Microphone" true true 1 48000 in
  let b := mkDevice "built-in" "Built-in Microphone" false true 2 44100 in
  let a' := mkDevice "usb-a" "USB Microphone (2)" true true 2 44100 in
  let b' := mkDevice "built-in" "Built-in Microphone" false false 2 44100 in
  let renew := fun e : string * AudioDevice =>
                 if String.eqb (fst e) "usb-a" then a' else b' in
  let oldDevices := refreshed [a; b] in
  detectDeviceChanges oldDevices (refreshed [a'; b']) 7 =
    [mkEvent stateChanged b' 7].
Proof.
  intros a b a' b' renew oldDevices.
  apply (diff_reports_only_flips oldDevices renew 7).
  - repeat constructor; simpl; intuition discriminate.
  - intros e [<-|[<-|[]]]; split; reflexivity.
Defined.

End DeviceDiffMore.

(** ** WhisperService: combining chunks *)

Module WhisperServiceCorrect.

Import AudioCaptureManager TypedArraySet WhisperService.

Lemma fold_len (chunks : list AudioChunk) : forall a,
  fold_left (fun sum chunk => sum + Float32Array.len (data chunk)) chunks a =
    a + Float32Array.len (concat (map data chunks)).
Proof.
  unfold Float32Array.len.
  induction chunks as [|c chunks IH]; intros a; simpl; [lia|].
  rewrite IH, length_app. lia.
Qed.

Lemma set_at_tail (done zeros source : list sample) :
  Float32Array.len source <= Float32Array.len zeros ->
  set_at (done ++ zeros) source (Float32Array.len done) =
    Some ((done ++ source) ++
          drop (Z.to_nat (Float32Array.len source)) zeros).
Proof.
  unfold set_at, Float32Array.len. intros Hfit.
  rewrite length_app.
  destruct (Z.ltb_spec (Z.of_nat (length done)) 0); [lia|].
  destruct (Z.ltb_spec (Z.of_nat (length done + length zeros))
                       (Z.of_nat (length done) + Z.of_nat (length source)));
    [lia|].
  simpl. f_equal.
  rewrite Nat2Z.id, take_app_length.
  replace (Z.to_nat (Z.of_nat (length done) + Z.of_nat (length source)))
    with (length done + length source)%nat by lia.
  rewrite drop_app_add'; [|reflexivity].
  rewrite Nat2Z.id, <- app_assoc. reflexivity.
Qed.

Lemma combine_loop_fills chunks : forall done zeros,
  Float32Array.len zeros = Float32Array.len (concat (map data chunks)) ->
  combine_loop chunks (done ++ zeros) (Float32Array.len done) =
    Some (done ++ concat (map data chunks)).
Proof.
  induction chunks as [|c chunks IH]; intros done zeros Hlen.
  - simpl in *. destruct zeros; [reflexivity|].
    unfold Float32Array.len in Hlen. simpl in Hlen. lia.
  - cbn [combine_loop map concat]. cbn [map concat] in Hlen.
    unfold Float32Array.len in Hlen. rewrite length_app in Hlen.
    rewrite set_at_tail by (unfold Float32Array.len; lia).
    replace (Float32Array.len done + Float32Array.len (data c))
      with (Float32Array.len (done ++ data c))
      by (unfold Float32Array.len; rewrite length_app; lia).
    rewrite IH.
    + rewrite <- app_assoc. reflexivity.
    + unfold Float32Array.len. rewrite length_drop. lia.
Qed.

(** X17.  [combineAudioChunks] never throws: every chunk fits at its
    offset, and the combined array is the chunks' samples end to end, in
    chunk order, with nothing left of the zeros it was allocated with. *)
Theorem combineAudioChunks_concat (chunks : list AudioChunk) :
  combineAudioChunks chunks = Some (concat (map data chunks)).
Proof.
  unfold combineAudioChunks.
  destruct chunks as [|c chunks]; [reflexivity|].
  destruct (Z.eqb_spec (Z.of_nat (length (c :: chunks))) 0) as [E|_];
    [simpl in E; lia|].
  cbv zeta. rewrite fold_len. rewrite Z.add_0_l.
  unfold Float32Array.make.
  destruct (Z.ltb_spec (Float32Array.len (concat (map data (c :: chunks)))) 0)
    as [Hneg|_]; [unfold Float32Array.len in Hneg; lia|].
  apply (combine_loop_fills (c :: chunks) []).
  unfold Float32Array.len. rewrite length_replicate. lia.
Qed.

End WhisperServiceCorrect.

(** ** SpeechServiceManager: transcribing and the transcript history *)

Module SpeechServiceStateCorrect.

Import AudioCaptureManager SpeechServiceState.

(** X18.  A transcription that throws leaves the manager as it was: the
    segment window and the transcript history are untouched.  It emits one
    [transcriptionError] carrying the thrown error, except for the throw of
    an uninitialised manager, which emits nothing. *)
Theorem transcribe_failure_keeps_state (request : TranscriptionRequest.t)
    (newId : string) (maxTranscripts : Z) (s : t) (e : error) :
  fst (fst (transcribe request newId maxTranscripts s)) = Threw e ->
  snd (fst (transcribe request newId maxTranscripts s)) = s /\
  snd (transcribe request newId maxTranscripts s) =
    (if isInitialized s then [transcriptionError e] else []).
Proof.
  unfold transcribe. destruct (isInitialized s); simpl; [|auto].
  destruct (services s !! _) as [service|]; simpl;
    [|intros [= <-]; auto].
  destruct (isAvailable service); simpl; [|intros [= <-]; auto].
  destruct (_ =? 0); simpl; [intros [= <-]; auto|].
  destruct (service_transcribe _ _ _); simpl; [discriminate|].
  intros [= <-]; auto.
Qed.

Lemma transcribe_failure_keeps_state_witness :
  let chunk := mkChunk [0.5]%float 1000 1000 44100 1 in
  let s := mk {[ "whisper" := deaf_service ]} [] true false [chunk; chunk] in
  let request := TranscriptionRequest.mk "whisper" None None None in
  let e := SpeechServiceError "Whisper transcription failed" in
  fst (fst (transcribe request "t1" 100 s)) = Threw e /\
  snd (fst (transcribe request "t1" 100 s)) = s /\
  snd (transcribe request "t1" 100 s) =
    (if isInitialized s then [transcriptionError e] else []).
Proof.
  intros chunk s request e.
  assert (fst (fst (transcribe request "t1" 100 s)) = Threw e) as H
      by (vm_compute; reflexivity).
  split; [exact H|].
  apply (transcribe_failure_keeps_state request "t1" 100 s e H).
Defined.

(** X19.  What a transcription that returns has done.  The service named
    in the request is registered and available; the chunks it was given are
    the request's own if it carries any, else the window's, and there is at
    least one; the transcript it stores is the newest of the history and
    records how many chunks there were and their total duration; one
    [transcriptionComplete] is emitted; the window is emptied unless the
    request says [continuous], and then it is left as it was; and a history
    within a positive limit stays within it. *)
Theorem transcribe_success (request : TranscriptionRequest.t)
    (newId : string) (maxTranscripts : Z) (s : t)
    (result : TranscriptionResult.t) :
  fst (fst (transcribe request newId maxTranscripts s)) = Returned result ->
  let s' := snd (fst (transcribe request newId maxTranscripts s)) in
  let chunks := match TranscriptionRequest.audioData request with
                | Some chunks => chunks
                | None => audioBuffer s
                end in
  let transcript :=
    Transcript.mk newId (TranscriptionResult.text result)
      (TranscriptionResult.timestamp result)
      (TranscriptionResult.service result)
      (TranscriptionResult.confidence result)
      (Z.of_nat (length chunks))
      (SpeechServiceManager.totalDuration chunks) in
  (exists service,
      services s !! TranscriptionRequest.service request = Some service /\
      isAvailable service = true /\
      service_transcribe service chunks (TranscriptionRequest.language request)
        = Transcribed result) /\
  chunks <> [] /\
  snd (transcribe request newId maxTranscripts s) =
    [transcriptionComplete result transcript] /\
  audioBuffer s' =
    (if match TranscriptionRequest.continuous request with
        | Some b => b
        | None => false
        end
     then audioBuffer s else []) /\
  (exists k, transcripts s' = drop k (transcripts s ++ [transcript])) /\
  (0 < maxTranscripts ->
   Z.of_nat (length (transcripts s)) <= maxTranscripts ->
   Z.of_nat (length (transcripts s')) <= maxTranscripts /\
   last (transcripts s') = Some transcript).
Proof.
  unfold transcribe. destruct (isInitialized s); simpl; [|discriminate].
  destruct (services s !! _) as [service|]; simpl; [|discriminate].
  destruct (isAvailable service) eqn:Hav; simpl; [|discriminate].
  set (chunks := match TranscriptionRequest.audioData request with
                 | Some chunks => chunks
                 | None => audioBuffer s
                 end).
  destruct (Z.eqb_spec (Z.of_nat (length chunks)) 0) as [|Hne]; simpl;
    [discriminate|].
  destruct (service_transcribe service chunks _) as [r|] eqn:Ht; simpl;
    [|discriminate].
  intros [= ->].
  set (transcript := Transcript.mk newId _ _ _ _ _ _).
  split; [exists service; auto|].
  split; [intros E; rewrite E in Hne; simpl in Hne; lia|].
  split; [reflexivity|].
  split; [destruct (TranscriptionRequest.continuous request) as [[|]|];
          reflexivity|].
  assert (Z.of_nat (length (transcripts s ++ [transcript])) =
          Z.of_nat (length (transcripts s)) + 1) as Hlen
      by (rewrite length_app; simpl; lia).
  split.
  - destruct (_ >? maxTranscripts); [|exists O; reflexivity].
    unfold JsArray.slice_from. cbv zeta. eexists. reflexivity.
  - intros Hpos Hfit.
    destruct (Z.gtb_spec (Z.of_nat (length (transcripts s ++ [transcript])))
                         maxTranscripts) as [Hover|Hin].
    + destruct (JsArrayFacts.slice_from_last maxTranscripts
                  (transcripts s ++ [transcript]) Hpos Hover) as [E L].
      split; [lia|]. rewrite E.
      rewrite drop_app_le by lia. apply last_snoc.
    + split; [lia|]. apply last_snoc.
Qed.

Lemma transcribe_success_witness :
  let chunk := mkChunk [0.5]%float 1000 1000 44100 1 in
  let s := mk {[ "whisper" := mock_whisper ]} [] true false [chunk; chunk] in
  let request := TranscriptionRequest.mk "whisper" (Some "en") None None in
  let result := mock_result (Some "en") in
  let s' := snd (fst (transcribe request "t1" 100 s)) in
  let transcript :=
    Transcript.mk "t1" (TranscriptionResult.text result)
      (TranscriptionResult.timestamp result)
      (TranscriptionResult.service result)
      (TranscriptionResult.confidence result)
      2 2000 in
  snd (transcribe request "t1" 100 s) =
    [transcriptionComplete result transcript] /\
  audioBuffer s' = [] /\
  transcripts s' = [transcript].
Proof.
  intros chunk s request result s' transcript.
  pose proof (transcribe_success request "t1" 100 s result eq_refl)
    as (_ & _ & E & B & _ & _).
  split; [exact E|]. split; [exact B|]. reflexivity.
Defined.

(** X20.  A request that carries an empty list of chunks is not served from
    the window: an empty array is still an array, so the window is not
    consulted, and the call throws "No audio data available" even when the
    window holds chunks.  Nothing changes. *)
Theorem empty_audioData_not_buffered (request : TranscriptionRequest.t)
    (newId : string) (maxTranscripts : Z) (s : t) (service : SpeechService) :
  isInitialized s = true ->
  services s !! TranscriptionRequest.service request = Some service ->
  isAvailable service = true ->
  TranscriptionRequest.audioData request = Some [] ->
  let e := SpeechServiceError "No audio data available for transcription" in
  transcribe request newId maxTranscripts s =
    (Threw e, s, [transcriptionError e]).
Proof.
  intros Hi Hs Ha Hd. unfold transcribe. rewrite Hi, Hs, Ha, Hd. reflexivity.
Qed.

Lemma empty_audioData_not_buffered_witness :
  let chunk := mkChunk [0.5]%float 1000 1000 44100 1 in
  let s := mk {[ "whisper" := mock_whisper ]} [] true false [chunk; chunk] in
  let request := TranscriptionRequest.mk "whisper" None None (Some []) in
  let e := SpeechServiceError "No audio data available for transcription" in
  audioBuffer s <> [] /\
  transcribe request "t1" 100 s = (Threw e, s, [transcriptionError e]).
Proof.
  intros chunk s request e. split; [discriminate|].
  apply (empty_audioData_not_buffered request "t1" 100 s mock_whisper);
    reflexivity.
Defined.

(** X21.  [getRecentTranscripts(limit)] with a positive limit answers the
    last [limit] transcripts stored, newest first (all of them when fewer
    are stored); with no limit, or a limit of 0, which counts as none, it
    answers the whole history, newest first. *)
Theorem getRecentTranscripts_newest_first (limit : Z) (s : t) :
  (0 < limit ->
   getRecentTranscripts (Some limit) s =
     rev (drop (length (transcripts s) - Z.to_nat limit) (transcripts s))) /\
  getRecentTranscripts (Some 0) s = rev (transcripts s) /\
  getRecentTranscripts None s = rev (transcripts s).
Proof.
  split; [|split; reflexivity].
  intros Hpos. unfold getRecentTranscripts. cbv zeta.
  destruct (Z.eqb_spec limit 0); [lia|].
  rewrite JsArrayFacts.slice_to_first by lia.
  apply firstn_rev.
Qed.

Lemma getRecentTranscripts_newest_first_witness :
  let t1 := Transcript.mk "t1" "one" 10 "whisper-local" 0.5%float 1 1000 in
  let t2 := Transcript.mk "t2" "two" 20 "whisper-local" 0.5%float 2 2000 in
  let t3 := Transcript.mk "t3" "three" 30 "whisper-local" 0.5%float 1 1000 in
  let s := mk ∅ [t1; t2; t3] true false [] in
  getRecentTranscripts (Some 2) s = [t3; t2].
Proof.
  intros t1 t2 t3 s.
  apply (proj1 (getRecentTranscripts_newest_first 2 s)). lia.
Defined.

End SpeechServiceStateCorrect.

(** ** The segment window fed by the capture manager *)

Module SegmentWindowMore.

Import AudioCaptureManager AudioCaptureLifecycle SpeechServiceManager
  SpeechServiceManagerCorrect.

Lemma totalDuration_seconds (l : list AudioChunk) :
  Forall one_second l -> totalDuration l = 1000 * Z.of_nat (length l).
Proof.
  induction 1 as [|c l Hc _ IH]; [reflexivity|].
  rewrite totalDuration_cons, IH, Hc. simpl length. lia.
Qed.

Lemma evict_seconds (l : list AudioChunk) :
  Forall one_second l ->
  evict (totalDuration l - maxBufferDuration) l = drop (length l - 30) l.
Proof.
  intros Hl. destruct (evict_spec l) as (k & E & Hle & Hgt). rewrite E.
  assert (forall j, totalDuration (drop j l) =
                    1000 * Z.of_nat (length l - j)) as Hd.
  { intros j. rewrite totalDuration_seconds, length_drop; [reflexivity|].
    apply Forall_drop. exact Hl. }
  rewrite Hd in Hle. unfold maxBufferDuration in *.
  assert (k <= length l \/ length l < k)%nat as [Hk|Hk] by lia.
  - f_equal. destruct (Nat.eq_dec k (length l - 30)%nat) as [|Hne]; [assumption|].
    exfalso. assert (length l - 30 < k)%nat as Hlt by lia.
    specialize (Hgt (length l - 30)%nat Hlt). rewrite Hd in Hgt. lia.
  - exfalso. specialize (Hgt (length l) Hk). rewrite Hd in Hgt. lia.
Qed.

Lemma addAudioChunk_seconds chunk (audioBuffer : list AudioChunk) :
  Forall one_second (audioBuffer ++ [chunk]) ->
  addAudioChunk chunk audioBuffer =
    drop (length (audioBuffer ++ [chunk]) - 30) (audioBuffer ++ [chunk]).
Proof.
  intros Hl. unfold addAudioChunk. cbv zeta.
  destruct (Z.gtb_spec (totalDuration (audioBuffer ++ [chunk])) maxBufferDuration)
    as [Hover|Hfit].
  - apply evict_seconds. exact Hl.
  - rewrite (totalDuration_seconds _ Hl) in Hfit. unfold maxBufferDuration in Hfit.
    replace (length (audioBuffer ++ [chunk]) - 30)%nat with O by lia.
    reflexivity.
Qed.

Lemma pushes_seconds (cs : list AudioChunk) : forall w,
  Forall one_second w -> Forall one_second cs ->
  (length w <= 30)%nat ->
  fold_left (fun audioBuffer chunk => addAudioChunk chunk audioBuffer) cs w =
    drop (length (w ++ cs) - 30) (w ++ cs).
Proof.
  induction cs as [|c cs IH]; intros w Hw Hcs Hlen.
  - simpl. rewrite app_nil_r.
    replace (length w - 30)%nat with O by lia. reflexivity.
  - inversion Hcs as [|? ? Hc Hrest]; subst. cbn [fold_left].
    assert (Forall one_second (w ++ [c])) as Hwc
        by (apply Forall_app; split; [exact Hw|constructor; auto]).
    rewrite (addAudioChunk_seconds c w Hwc).
    set (d := (length (w ++ [c]) - 30)%nat).
    assert (length (w ++ [c]) = S (length w)) as Hl1
        by (rewrite length_app; simpl; lia).
    rewrite IH.
    + rewrite <- drop_app_le by lia. rewrite <- app_assoc. simpl.
      rewrite drop_drop. f_equal.
      rewrite length_drop, !length_app. simpl. subst d. lia.
    + apply Forall_drop. exact Hwc.
    + exact Hrest.
    + rewrite length_drop. lia.
Qed.

(** X22.  Fed with the one-second chunks the drain produces, the window
    holds the last thirty of them.  Starting from an empty window, after
    any number of pushes it is the pushed sequence without all but its last
    30 chunks, in order. *)
Theorem window_holds_last_thirty (chunks : list AudioChunk) :
  Forall one_second chunks ->
  fold_left (fun audioBuffer chunk => addAudioChunk chunk audioBuffer) chunks [] =
    drop (length chunks - 30) chunks.
Proof.
  intros Hall.
  apply (pushes_seconds chunks []); [constructor|exact Hall|simpl; lia].
Qed.

Lemma window_holds_last_thirty_witness :
  let chunk := fun n => mkChunk [] n 1000 44100 1 in
  let chunks := map chunk (seqZ 1 32) in
  fold_left (fun audioBuffer chunk => addAudioChunk chunk audioBuffer) chunks [] =
    drop (length chunks - 30) chunks.
Proof.
  intros chunk chunks. apply (window_holds_last_thirty chunks).
  unfold chunks. apply List.Forall_forall. intros c Hc.
  apply in_map_iff in Hc. destruct Hc as (n & <- & _). reflexivity.
Defined.

(** X23.  From capture to transcript.  The manager's window is empty; the
    drain's one-second chunks are pushed, at least one; then a request
    without chunks of its own is served by a registered, available service
    that answers.  The service is given the last thirty chunks pushed, the
    transcript records their number (at most 30) and 1000 ms for each, and
    the window is empty afterwards unless the request says [continuous]. *)
Theorem pushes_then_transcribe (chunks : list AudioChunk)
    (s : SpeechServiceState.t) (service : SpeechServiceState.SpeechService)
    (name newId : string) (language : option string) (continuous : option bool)
    (maxTranscripts : Z) (result : TranscriptionResult.t) :
  SpeechServiceState.isInitialized s = true ->
  SpeechServiceState.audioBuffer s = [] ->
  SpeechServiceState.services s !! name = Some service ->
  SpeechServiceState.isAvailable service = true ->
  chunks <> [] ->
  Forall one_second chunks ->
  let window := drop (length chunks - 30) chunks in
  SpeechServiceState.service_transcribe service window language =
    SpeechServiceState.Transcribed result ->
  let s1 := fold_left (fun s chunk => SpeechServiceState.addAudioChunk chunk s)
                      chunks s in
  let request := TranscriptionRequest.mk name language continuous None in
  let out := SpeechServiceState.transcribe request newId maxTranscripts s1 in
  let transcript :=
    Transcript.mk newId (TranscriptionResult.text result)
      (TranscriptionResult.timestamp result)
      (TranscriptionResult.service result)
      (TranscriptionResult.confidence result)
      (Z.min (Z.of_nat (length chunks)) 30)
      (1000 * Z.min (Z.of_nat (length chunks)) 30) in
  SpeechServiceState.audioBuffer s1 = window /\
  fst (fst out) = SpeechServiceState.Returned result /\
  snd out = [SpeechServiceState.transcriptionComplete result transcript] /\
  SpeechServiceState.audioBuffer (snd (fst out)) =
    (if match continuous with Some b => b | None => false end
     then window else []).
Proof.
  intros Hi Hb Hs Ha Hne Hall window Ht s1 request out transcript.
  assert (forall cs s0,
             SpeechServiceState.audioBuffer
               (fold_left (fun s chunk => SpeechServiceState.addAudioChunk chunk s)
                          cs s0) =
             fold_left (fun w chunk => addAudioChunk chunk w) cs
                       (SpeechServiceState.audioBuffer s0) /\
             SpeechServiceState.services
               (fold_left (fun s chunk => SpeechServiceState.addAudioChunk chunk s)
                          cs s0) = SpeechServiceState.services s0 /\
             SpeechServiceState.isInitialized
               (fold_left (fun s chunk => SpeechServiceState.addAudioChunk chunk s)
                          cs s0) = SpeechServiceState.isInitialized s0) as F.
  { induction cs as [|c cs IH]; intros s0; [auto|].
    cbn [fold_left]. destruct (IH (SpeechServiceState.addAudioChunk c s0))
      as (I1 & I2 & I3).
    rewrite I1, I2, I3. auto. }
  destruct (F chunks s) as (F1 & F2 & F3). fold s1 in F1, F2, F3.
  rewrite Hb in F1.
  rewrite (pushes_seconds chunks [] ltac:(constructor) Hall ltac:(simpl; lia))
    in F1.
  simpl in F1. fold window in F1.
  assert (Z.of_nat (length window) = Z.min (Z.of_nat (length chunks)) 30) as Hlen
      by (unfold window; rewrite length_drop; lia).
  assert (window <> []) as Hwne.
  { intros E. rewrite E in Hlen. simpl in Hlen.
    destruct chunks; [congruence|]. simpl length in Hlen. lia. }
  assert (Forall one_second window) as Hw
      by (apply Forall_drop; exact Hall).
  split; [exact F1|].
  subst out request. unfold SpeechServiceState.transcribe.
  rewrite F3, Hi, F2. cbn [negb TranscriptionRequest.service].
  rewrite Hs, Ha. cbn [negb TranscriptionRequest.audioData]. rewrite F1.
  destruct (Z.eqb_spec (Z.of_nat (length window)) 0) as [E0|_].
  { destruct window; [congruence|]. simpl in E0. lia. }
  cbn [TranscriptionRequest.language]. rewrite Ht.
  cbn [fst snd TranscriptionRequest.continuous SpeechServiceState.audioBuffer].
  split; [reflexivity|]. split.
  - unfold transcript. rewrite <- Hlen.
    rewrite <- (totalDuration_seconds window Hw). reflexivity.
  - destruct continuous as [[|]|]; reflexivity.
Qed.

Lemma pushes_then_transcribe_witness :
  let chunk := fun n => mkChunk [] n 1000 44100 1 in
  let chunks := map chunk (seqZ 1 32) in
  let s := SpeechServiceState.mk
             {[ "whisper" := SpeechServiceState.mock_whisper ]} [] true false [] in
  let result := SpeechServiceState.mock_result (Some "en") in
  let window := drop (length chunks - 30) chunks in
  let s1 := fold_left (fun s chunk => SpeechServiceState.addAudioChunk chunk s)
                      chunks s in
  let request := TranscriptionRequest.mk "whisper" (Some "en") None None in
  let out := SpeechServiceState.transcribe request "t1" 100 s1 in
  let transcript :=
    Transcript.mk "t1" (TranscriptionResult.text result)
      (TranscriptionResult.timestamp result)
      (TranscriptionResult.service result)
      (TranscriptionResult.confidence result)
      (Z.min (Z.of_nat (length chunks)) 30)
      (1000 * Z.min (Z.of_nat (length chunks)) 30) in
  SpeechServiceState.audioBuffer s1 = window /\
  fst (fst out) = SpeechServiceState.Returned result /\
  snd out = [SpeechServiceState.transcriptionComplete result transcript] /\
  SpeechServiceState.audioBuffer (snd (fst out)) = [].
Proof.
  intros chunk chunks s result window s1 request out transcript.
  apply (pushes_then_transcribe chunks s SpeechServiceState.mock_whisper
           "whisper" "t1" (Some "en") None 100 result);
    try reflexivity.
  - discriminate.
  - unfold chunks. apply List.Forall_forall. intros c Hc.
    apply in_map_iff in Hc. destruct Hc as (n & <- & _). reflexivity.
Defined.

End SegmentWindowMore.

(** ** ErrorHandler: backoff, giving up, forgetting *)

Module ErrorHandlerCorrect.

Import ErrorHandler.

(** X24.  The backoff schedule.  The delay before attempt [n] is
    [1000 * 2^n] ms for the first five attempts (1, 2, 4, 8, 16 seconds) and
    30 seconds from then on; it never shrinks from one attempt to the
    next. *)
Theorem retryDelay_schedule (n m : nat) :
  ((n <= 4)%nat -> retryDelay n = 1000 * 2 ^ Z.of_nat n) /\
  ((5 <= n)%nat -> retryDelay n = 30000) /\
  1000 <= retryDelay n <= 30000 /\
  ((n <= m)%nat -> retryDelay n <= retryDelay m).
Proof.
  assert (forall a b : nat, (a <= b)%nat -> 2 ^ Z.of_nat a <= 2 ^ Z.of_nat b)
    as Hmono by (intros a b Hab; apply Z.pow_le_mono_r; lia).
  assert (forall a : nat, 1 <= 2 ^ Z.of_nat a) as Hone
      by (intros a; specialize (Hmono O a ltac:(lia)); simpl in Hmono; lia).
  unfold retryDelay. repeat split.
  - intros Hn. specialize (Hmono n 4%nat Hn).
    change (2 ^ Z.of_nat 4) with 16 in Hmono. lia.
  - intros Hn. specialize (Hmono 5%nat n Hn).
    change (2 ^ Z.of_nat 5) with 32 in Hmono. lia.
  - specialize (Hone n). lia.
  - lia.
  - intros Hnm. specialize (Hmono n m Hnm). lia.
Qed.

(** What one call does to the two maps, and when it retries. *)
Lemma handle_spec error context retryCallback now s :
  let key := errorKey context error in
  let count := default O (errorCounts s !! key) in
  let retried := (count <? 5)%nat && recoverable error
                 && match retryCallback with Some _ => true | None => false end in
  let recovered := retried
                   && match retryCallback with Some b => b | None => false end in
  let out := handleRecoverableError error context retryCallback now s in
  fst (fst out) = recovered /\
  snd (fst out) = (if retried then Some (retryDelay count) else None) /\
  lastErrors (snd out) = <[key := now]> (lastErrors s) /\
  errorCounts (snd out) =
    (if recovered then delete key (errorCounts s)
     else <[key := S count]> (errorCounts s)).
Proof.
  cbv zeta. unfold handleRecoverableError. cbv zeta.
  destruct (Nat.leb_spec 5 (default O (errorCounts s !! errorKey context error)))
    as [Hge|Hlt].
  - destruct (Nat.ltb_spec (default O (errorCounts s !! errorKey context error)) 5);
      [lia|]. simpl. auto.
  - destruct (Nat.ltb_spec (default O (errorCounts s !! errorKey context error)) 5);
      [|lia].
    destruct retryCallback as [[|]|], (recoverable error); simpl; auto.
    repeat split. apply delete_insert_eq.
Qed.

Lemma retryDelay_early (n : nat) :
  (n < 5)%nat -> retryDelay n = 1000 * 2 ^ Z.of_nat n.
Proof.
  intros Hn. unfold retryDelay.
  assert (2 ^ Z.of_nat n <= 2 ^ Z.of_nat 4)
    by (apply Z.pow_le_mono_r; lia).
  change (2 ^ Z.of_nat 4) with 16 in *. lia.
Qed.

Lemma count_after error context retryCallback now s :
  let key := errorKey context error in
  fst (fst (handleRecoverableError error context retryCallback now s)) = false ->
  default O
    (errorCounts (snd (handleRecoverableError error context retryCallback now s))
       !! key) = S (default O (errorCounts s !! key)).
Proof.
  cbv zeta.
  destruct (handle_spec error context retryCallback now s) as (H1 & _ & _ & H4).
  cbv zeta in H1, H4. intros Hf. rewrite Hf in H1. rewrite <- H1 in H4.
  rewrite H4, lookup_insert_eq. reflexivity.
Qed.

(** X25.  Five retries, then none.  For a recoverable error whose key has
    no count yet and a retry callback that fails every time, every call
    answers [false]; the first five calls retry, after 1000, 2000, 4000,
    8000 and 16000 ms, and from the sixth call on no retry is made, so the
    30 second cap of the backoff is never waited for.  The count ends at the
    number of calls. *)
Theorem persistent_failure (error : AudioMCPError) (context : string)
    (calls : list (option bool * Z)) (s : t) :
  recoverable error = true ->
  errorCounts s !! errorKey context error = None ->
  Forall (fun c => fst c = Some false) calls ->
  fst (handleAll error context calls s) =
    map (fun i : nat =>
           (false,
            if (i <? 5)%nat then Some (1000 * 2 ^ Z.of_nat i) else None))
        (seq 0 (length calls)) /\
  default O (errorCounts (snd (handleAll error context calls s))
               !! errorKey context error) = length calls.
Proof.
  intros Hrec Hnone Hfail.
  assert (forall calls s,
             Forall (fun c => fst c = Some false) calls ->
             fst (handleAll error context calls s) =
               map (fun i : nat =>
                      (false,
                       if (i <? 5)%nat then Some (1000 * 2 ^ Z.of_nat i)
                       else None))
                   (seq (default O (errorCounts s !! errorKey context error))
                        (length calls)) /\
             default O (errorCounts (snd (handleAll error context calls s))
                          !! errorKey context error) =
               (default O (errorCounts s !! errorKey context error)
                + length calls)%nat) as G.
  { clear calls s Hnone Hfail.
    induction calls as [|[cb now] calls IH]; intros s Hfail.
    - simpl. split; [reflexivity|lia].
    - inversion Hfail as [|? ? Hcb Hrest]; subst. simpl in Hcb. subst cb.
      cbn [handleAll].
      destruct (handle_spec error context (Some false) now s)
        as (H1 & H2 & _ & _). cbv zeta in H1, H2.
      rewrite Hrec in H1, H2. rewrite !andb_true_r in H2.
      rewrite andb_false_r in H1.
      pose proof (count_after error context (Some false) now s H1) as Hc.
      cbv zeta in Hc.
      destruct (handleRecoverableError error context (Some false) now s)
        as [[answer delay] s1]. simpl in H1, H2, Hc. subst answer delay.
      destruct (IH s1 Hrest) as [I1 I2].
      destruct (handleAll error context calls s1) as [answers s2].
      simpl in I1, I2. simpl. rewrite I1, I2, Hc. split; [|lia].
      f_equal. f_equal.
      destruct (Nat.ltb_spec
                  (default O (errorCounts s !! errorKey context error)) 5)
        as [Hlt|_]; [|reflexivity].
      rewrite (retryDelay_early _ Hlt). reflexivity. }
  destruct (G calls s Hfail) as [G1 G2]. rewrite Hnone in G1, G2.
  simpl in G1, G2. split; assumption.
Qed.

Lemma persistent_failure_witness :
  let error := createCaptureError "Failed to start native audio capture" in
  let calls := [(Some false, 10); (Some false, 1020); (Some false, 3030);
                (Some false, 7040); (Some false, 15050); (Some false, 31060);
                (Some false, 31070)] in
  fst (handleAll error "startCapture" calls (mk ∅ ∅)) =
    [(false, Some 1000); (false, Some 2000); (false, Some 4000);
     (false, Some 8000); (false, Some 16000); (false, None); (false, None)] /\
  default O (errorCounts (snd (handleAll error "startCapture" calls (mk ∅ ∅)))
               !! errorKey "startCapture" error) = 7%nat.
Proof.
  intros error calls.
  apply (persistent_failure error "startCapture" calls (mk ∅ ∅)).
  - reflexivity.
  - reflexivity.
  - repeat constructor.
Defined.

(** X26.  Given up for good.  Once the count of a key has reached 5, every
    further call for that key answers [false] without calling the retry
    callback, whether or not a callback is passed and whether or not it
    would succeed. *)
Theorem given_up_for_good (error : AudioMCPError) (context : string)
    (calls : list (option bool * Z)) (s : t) :
  (5 <= default O (errorCounts s !! errorKey context error))%nat ->
  fst (handleAll error context calls s) = map (fun _ => (false, None)) calls.
Proof.
  revert s. induction calls as [|[cb now] calls IH]; intros s Hge;
    [reflexivity|].
  cbn [handleAll].
  destruct (handle_spec error context cb now s) as (H1 & H2 & _ & _).
  cbv zeta in H1, H2.
  destruct (Nat.ltb_spec (default O (errorCounts s !! errorKey context error)) 5)
    as [|_]; [lia|].
  simpl in H1, H2.
  pose proof (count_after error context cb now s H1) as Hc. cbv zeta in Hc.
  destruct (handleRecoverableError error context cb now s)
    as [[answer delay] s1]. simpl in H1, H2, Hc. subst answer delay.
  specialize (IH s1 ltac:(lia)).
  destruct (handleAll error context calls s1) as [answers s2].
  simpl in IH. simpl. rewrite IH. reflexivity.
Qed.

Lemma given_up_for_good_witness :
  let error := createNetworkError "timeout" in
  let s := mk {[ errorKey "upload" error := 5%nat ]}
              {[ errorKey "upload" error := 100 ]} in
  let calls := [(Some true, 200); (None, 300); (Some false, 400)] in
  fst (handleAll error "upload" calls s) = map (fun _ => (false, None)) calls.
Proof.
  intros error s calls.
  apply (given_up_for_good error "upload" calls s).
  vm_compute. lia.
Defined.

(** X27.  A successful retry wipes the slate.  For a recoverable error
    below the give-up count and a callback that succeeds, the call answers
    [true] after the delay of the current attempt and removes the key's
    count, leaving the counts of all other keys alone; the next failure for
    that key is attempt 0 again and waits 1000 ms. *)
Theorem recovery_resets_count (error : AudioMCPError) (context : string)
    (now later : Z) (s : t) :
  recoverable error = true ->
  (default O (errorCounts s !! errorKey context error) < 5)%nat ->
  let key := errorKey context error in
  let out := handleRecoverableError error context (Some true) now s in
  fst out = (true, Some (retryDelay (default O (errorCounts s !! key)))) /\
  errorCounts (snd out) !! key = None /\
  (forall k, k <> key -> errorCounts (snd out) !! k = errorCounts s !! k) /\
  lastErrors (snd out) !! key = Some now /\
  fst (handleRecoverableError error context (Some false) later (snd out)) =
    (false, Some 1000).
Proof.
  intros Hrec Hlt key out. subst key.
  destruct (handle_spec error context (Some true) now s) as (H1 & H2 & H3 & H4).
  cbv zeta in H1, H2, H4. fold out in H1, H2, H3, H4.
  rewrite Hrec in H1, H2, H4.
  destruct (Nat.ltb_spec (default O (errorCounts s !! errorKey context error)) 5)
    as [_|]; [|lia].
  simpl in H1, H2, H4.
  assert (errorCounts (snd out) !! errorKey context error = None) as Hgone
      by (rewrite H4; apply lookup_delete_eq).
  split; [destruct out as [[a d] s1]; simpl in *; congruence|].
  split; [exact Hgone|].
  split; [intros k Hk; rewrite H4; apply lookup_delete_ne; congruence|].
  split; [rewrite H3; apply lookup_insert_eq|].
  destruct (handle_spec error context (Some false) later (snd out))
    as (K1 & K2 & _ & _).
  cbv zeta in K1, K2. rewrite Hgone, Hrec in K1, K2.
  simpl in K1, K2.
  destruct (handleRecoverableError error context (Some false) later (snd out))
    as [[a d] s2]. simpl in *. subst. reflexivity.
Qed.

Lemma recovery_resets_count_witness :
  let error := createDeviceError "unplugged" in
  let key := errorKey "poll" error in
  let s := mk {[ key := 3%nat ]} {[ key := 100 ]} in
  let out := handleRecoverableError error "poll" (Some true) 200 s in
  fst out = (true, Some (retryDelay (default O (errorCounts s !! key)))) /\
  errorCounts (snd out) !! key = None /\
  (forall k, k <> key -> errorCounts (snd out) !! k = errorCounts s !! k) /\
  lastErrors (snd out) !! key = Some 200 /\
  fst (handleRecoverableError error "poll" (Some false) 300 (snd out)) =
    (false, Some 1000).
Proof.
  intros error key s out.
  apply (recovery_resets_count error "poll" 200 300 s).
  - reflexivity.
  - vm_compute. lia.
Defined.

(** The loop of the cleanup, over any part [m] of the time map. *)
Lemma cleanup_fold now s (m : gmap string Z) :
  let r := map_fold
             (fun key timestamp acc =>
                if now - timestamp >? maxAge
                then mk (delete key (errorCounts acc)) (delete key (lastErrors acc))
                else acc)
             s m in
  forall key,
    lastErrors r !! key =
      match m !! key with
      | Some ts => if now - ts >? maxAge then None else lastErrors s !! key
      | None => lastErrors s !! key
      end /\
    errorCounts r !! key =
      match m !! key with
      | Some ts => if now - ts >? maxAge then None else errorCounts s !! key
      | None => errorCounts s !! key
      end.
Proof.
  cbv zeta.
  apply (map_fold_weak_ind
           (fun r m => forall key,
                lastErrors r !! key =
                  match m !! key with
                  | Some ts => if now - ts >? maxAge then None
                               else lastErrors s !! key
                  | None => lastErrors s !! key
                  end /\
                errorCounts r !! key =
                  match m !! key with
                  | Some ts => if now - ts >? maxAge then None
                               else errorCounts s !! key
                  | None => errorCounts s !! key
                  end)).
  - intros key. rewrite lookup_empty. split; reflexivity.
  - intros i x m0 r Hi IH key.
    destruct (IH key) as [IH1 IH2].
    destruct (decide (i = key)) as [->|Hne].
    + rewrite lookup_insert_eq. rewrite Hi in IH1, IH2.
      destruct (now - x >? maxAge); simpl.
      * rewrite !lookup_delete_eq. split; reflexivity.
      * split; assumption.
    + rewrite lookup_insert_ne by exact Hne.
      destruct (now - x >? maxAge); simpl.
      * rewrite !lookup_delete_ne by exact Hne. split; assumption.
      * split; assumption.
Qed.

Lemma cleanup_lookup now s key :
  lastErrors (cleanupErrorTracking now s) !! key =
    match lastErrors s !! key with
    | Some ts => if now - ts >? maxAge then None else Some ts
    | None => None
    end /\
  errorCounts (cleanupErrorTracking now s) !! key =
    match lastErrors s !! key with
    | Some ts => if now - ts >? maxAge then None else errorCounts s !! key
    | None => errorCounts s !! key
    end.
Proof.
  pose proof (cleanup_fold now s (lastErrors s)) as F. cbv zeta in F.
  fold (cleanupErrorTracking now s) in F.
  destruct (F key) as [F1 F2]. split; [|exact F2].
  rewrite F1. destruct (lastErrors s !! key) eqn:E; [|reflexivity].
  destruct (_ >? _); reflexivity.
Qed.

(** X28.  The periodic cleanup forgets exactly the stale keys.  A key whose
    last error is more than five minutes old loses its time and its count;
    every other key keeps both.  So a key that had been given up on is
    retried again once it has gone stale: the next failure for it, with a
    callback, waits 1000 ms as a first attempt does. *)
Theorem cleanup_forgets_stale (now : Z) (s : t) :
  (forall key,
      lastErrors (cleanupErrorTracking now s) !! key =
        match lastErrors s !! key with
        | Some ts => if now - ts >? maxAge then None else Some ts
        | None => None
        end /\
      errorCounts (cleanupErrorTracking now s) !! key =
        match lastErrors s !! key with
        | Some ts => if now - ts >? maxAge then None else errorCounts s !! key
        | None => errorCounts s !! key
        end) /\
  (forall (error : AudioMCPError) (context : string) (ts later : Z),
      lastErrors s !! errorKey context error = Some ts ->
      maxAge < now - ts ->
      recoverable error = true ->
      fst (handleRecoverableError error context (Some false) later
             (cleanupErrorTracking now s)) = (false, Some 1000)).
Proof.
  pose proof (cleanup_lookup now s) as G.
  split; [exact G|].
  intros error context ts later Hts Hstale Hrec.
  destruct (G (errorKey context error)) as [_ G2]. rewrite Hts in G2.
  destruct (Z.gtb_spec (now - ts) maxAge); [|lia].
  destruct (handle_spec error context (Some false) later
              (cleanupErrorTracking now s)) as (K1 & K2 & _ & _).
  cbv zeta in K1, K2. rewrite G2, Hrec in K1, K2. simpl in K1, K2.
  destruct (handleRecoverableError error context (Some false) later
              (cleanupErrorTracking now s)) as [[a d] s2].
  simpl in *. subst. reflexivity.
Qed.

Lemma cleanup_forgets_stale_witness :
  let error := createNetworkError "timeout" in
  let key := errorKey "upload" error in
  let s := mk {[ key := 9%nat ]} {[ key := 1000 ]} in
  fst (handleRecoverableError error "upload" (Some false) 400000 s) =
    (false, None) /\
  fst (handleRecoverableError error "upload" (Some false) 400000
         (cleanupErrorTracking 301001 s)) = (false, Some 1000).
Proof.
  intros error key s. split; [reflexivity|].
  apply (proj2 (cleanup_forgets_stale 301001 s) error "upload" 1000 400000).
  - reflexivity.
  - vm_compute. reflexivity.
  - reflexivity.
Defined.

(** X29.  The two maps stay in step: if every counted key has a time of
    last error, that is still so after a call of [handleRecoverableError],
    whatever its arguments, and after a cleanup.  It is so at the start,
    when both maps are empty. *)
Theorem tracked_invariant (s : t) :
  tracked (mk ∅ ∅) /\
  (tracked s ->
   (forall error context retryCallback now,
       tracked (snd (handleRecoverableError error context retryCallback now s)))
   /\
   (forall now, tracked (cleanupErrorTracking now s))).
Proof.
  split.
  - intros key [x Hx]. simpl in Hx. rewrite lookup_empty in Hx. discriminate.
  - intros Htr. split.
    + intros error context retryCallback now key.
      destruct (handle_spec error context retryCallback now s)
        as (_ & _ & H3 & H4). cbv zeta in H4.
      rewrite H3, H4.
      destruct (decide (errorKey context error = key)) as [<-|Hne].
      * intros _. rewrite lookup_insert_eq. eauto.
      * rewrite lookup_insert_ne by exact Hne. intros Hc. apply Htr.
        destruct (_ && _); [rewrite lookup_delete_ne in Hc by exact Hne
                           |rewrite lookup_insert_ne in Hc by exact Hne];
          exact Hc.
    + intros now key.
      destruct (cleanup_lookup now s key) as [G1 G2].
      rewrite G1, G2. specialize (Htr key).
      destruct (lastErrors s !! key) as [ts|].
      * destruct (_ >? _); [intros [x Hx]; discriminate|eauto].
      * exact Htr.
Qed.

Lemma tracked_invariant_witness :
  let error := createNetworkError "timeout" in
  let s := mk {[ errorKey "upload" error := 2%nat ]}
              {[ errorKey "upload" error := 100 ]} in
  tracked s /\
  (forall error context retryCallback now,
      tracked (snd (handleRecoverableError error context retryCallback now s)))
  /\
  (forall now, tracked (cleanupErrorTracking now s)).
Proof.
  intros error s.
  assert (tracked s) as H.
  { intros key. unfold s. simpl.
    destruct (decide (errorKey "upload" error = key)) as [<-|Hne].
    - intros _. rewrite lookup_singleton_eq. eauto.
    - intros Hx. rewrite lookup_singleton_ne in Hx by exact Hne.
      destruct Hx as [x Hx]. discriminate. }
  split; [exact H|]. apply (proj2 (tracked_invariant s) H).
Defined.

End ErrorHandlerCorrect.

(** ** AudioCaptureManager: recent chunks *)

Module RecentChunksCorrect.

Import AudioCaptureManager AudioCaptureLifecycle.

Lemma recent_tail (cutoff : Z) (l : list AudioChunk) :
  StronglySorted Z.le (map timestamp l) ->
  exists k : nat,
    List.filter (fun chunk => timestamp chunk >? cutoff) l = drop k l /\
    Forall (fun chunk => timestamp chunk <= cutoff) (take k l) /\
    Forall (fun chunk => cutoff < timestamp chunk) (drop k l).
Proof.
  induction l as [|c l IH]; intros Hs.
  - exists O. repeat split; constructor.
  - simpl in Hs. inversion Hs as [|? ? Hrest Hall]; subst.
    simpl. destruct (Z.gtb_spec (timestamp c) cutoff) as [Hnew|Hold].
    + exists O. cbn [drop take]. split; [|split; [constructor|]].
      * f_equal. apply forallb_filter_id. apply forallb_forall.
        intros x Hx. apply Z.gtb_lt.
        rewrite List.Forall_forall in Hall.
        specialize (Hall (timestamp x) (in_map timestamp l x Hx)). lia.
      * constructor; [exact Hnew|].
        apply List.Forall_forall. intros x Hx.
        rewrite List.Forall_forall in Hall.
        specialize (Hall (timestamp x) (in_map timestamp l x Hx)). lia.
    + destruct (IH Hrest) as (k & E & Ht & Hd).
      exists (S k). cbn [drop take]. split; [exact E|]. split; [|exact Hd].
      constructor; [exact Hold|exact Ht].
Qed.

(** X30.  Recent chunks are the tail of the history.  When the chunks of
    the history carry non-decreasing timestamps, as chunks stamped by the
    drain do, [getRecentAudioChunks(seconds)] answers the history without
    its first [k] chunks for some [k]: exactly the chunks stamped later
    than [now - seconds * 1000], in order, a chunk stamped at that very
    instant being left out. *)
Theorem recent_chunks_are_tail (durationSeconds now : Z) (m : t) :
  StronglySorted Z.le (map timestamp (audioChunks m)) ->
  exists k : nat,
    getRecentAudioChunks durationSeconds now m = drop k (audioChunks m) /\
    Forall (fun chunk => timestamp chunk <= now - durationSeconds * 1000)
           (take k (audioChunks m)) /\
    Forall (fun chunk => now - durationSeconds * 1000 < timestamp chunk)
           (drop k (audioChunks m)).
Proof.
  intros Hs. unfold getRecentAudioChunks. cbv zeta.
  apply recent_tail. exact Hs.
Qed.

Lemma recent_chunks_are_tail_witness :
  let chunk := fun n => mkChunk [] n 1000 44100 1 in
  let m := mk None None VoiceActivityDetector.new_default false None
              [chunk 1000; chunk 2000; chunk 2000; chunk 3500] false in
  exists k : nat,
    getRecentAudioChunks 10 12000 m = drop k (audioChunks m) /\
    Forall (fun chunk => timestamp chunk <= 12000 - 10 * 1000)
           (take k (audioChunks m)) /\
    Forall (fun chunk => 12000 - 10 * 1000 < timestamp chunk)
           (drop k (audioChunks m)).
Proof.
  intros chunk m. apply (recent_chunks_are_tail 10 12000 m).
  simpl. repeat constructor; lia.
Defined.

End RecentChunksCorrect.
